(** * html2md: the block / inline reduction of an HTML tree to Markdown

    A shallow embedding of [html2md.parse] and [html2md.toMarkdown]
    (the extended variant, with [markdown_empty_blocks] and the [code]
    style), followed by the properties of the pipeline.

    JavaScript strings are sequences of UTF-16 code units; the DOM is an
    inductive tree, and a node handed around by reference carries the tags
    of its ancestors, which is all [closest] reads from [parentNode]. *)

From Stdlib Require Import String Ascii.
From Stdlib Require Import NArith Bool Arith Lia List.
Import ListNotations.

#[local] Set Warnings "-register-all".

(** ** JavaScript strings *)

Module JS.

Definition char16 := N.
Definition jsstring := list char16.

(** An ASCII literal as a JavaScript string. *)
Definition str (s : string) : jsstring :=
  map N_of_ascii (list_ascii_of_string s).

Definition SP : char16 := 32%N.

Definition char_eqb (a b : char16) : bool := N.eqb a b.

Fixpoint eqb (a b : jsstring) : bool :=
  match a, b with
  | [], [] => true
  | x :: a', y :: b' => char_eqb x y && eqb a' b'
  | _, _ => false
  end.

(** The class [\s] of a regular expression, which is also what
    [String.prototype.trim] removes: WhiteSpace and LineTerminator.
    (U+180E left the space separators with Unicode 6.3; counted or not,
    the properties below only use that the plain space is whitespace.) *)
Definition isSpace (c : char16) : bool :=
  ((9 <=? c) && (c <=? 13))%N          (* TAB LF VT FF CR *)
  || (c =? 32)%N                        (* SPACE *)
  || (c =? 160)%N                       (* NBSP *)
  || (c =? 5760)%N                      (* U+1680 *)
  || ((8192 <=? c) && (c <=? 8202))%N   (* U+2000 .. U+200A *)
  || (c =? 8232)%N || (c =? 8233)%N     (* LS PS *)
  || (c =? 8239)%N || (c =? 8287)%N     (* U+202F U+205F *)
  || (c =? 12288)%N                     (* U+3000 *)
  || (c =? 65279)%N.                    (* BOM *)

Fixpoint dropSpaces (s : jsstring) : jsstring :=
  match s with
  | c :: r => if isSpace c then dropSpaces r else s
  | [] => []
  end.

(** [s.replace(/^\s+/, "")] *)
Definition trimStart (s : jsstring) : jsstring := dropSpaces s.

(** [s.replace(/\s+$/, "")] *)
Definition trimEnd (s : jsstring) : jsstring := rev (dropSpaces (rev s)).

(** [s.trim()] *)
Definition trim (s : jsstring) : jsstring := trimEnd (trimStart s).

(** [s.replace(/\s+/g, " ")]: [inRun] says that the character before
    belongs to a run of whitespace that has been replaced already. *)
Fixpoint collapseFrom (inRun : bool) (s : jsstring) : jsstring :=
  match s with
  | [] => []
  | c :: r =>
      if isSpace c
      then if inRun then collapseFrom true r else SP :: collapseFrom true r
      else c :: collapseFrom false r
  end.

Definition collapseSpaces (s : jsstring) : jsstring := collapseFrom false s.

(** [s[0] === " "] *)
Definition startsWithSpace (s : jsstring) : bool :=
  match s with
  | c :: _ => char_eqb c SP
  | [] => false
  end.

(** [s[s.length - 1] === " "] *)
Fixpoint endsWithSpace (s : jsstring) : bool :=
  match s with
  | [] => false
  | [c] => char_eqb c SP
  | _ :: r => endsWithSpace r
  end.

(** [s.substr(1)] *)
Definition substr1 (s : jsstring) : jsstring := tl s.

(** Truthiness of a string: [if (s)]. *)
Definition truthy (s : jsstring) : bool :=
  match s with
  | [] => false
  | _ => true
  end.

(** [_.contains(list, value)] on strings. *)
Definition contains (l : list jsstring) (v : jsstring) : bool :=
  existsb (eqb v) l.

(** [_.last(array)], [undefined] on the empty array. *)
Fixpoint last {A : Type} (l : list A) : option A :=
  match l with
  | [] => None
  | [x] => Some x
  | _ :: r => last r
  end.

End JS.

Import JS.

(** ** The intermediate representation *)

(** An inline unit: [{type: "text", content, styles}], [{type: "br"}] or
    [{type: "img", src}]; [src] is what [getAttribute] returned, [null]
    when the attribute is absent. *)
Inductive Inline : Type :=
| Text (content : jsstring) (styles : list jsstring)
| Br
| Img (src : option jsstring).

Definition isText (i : Inline) : bool :=
  match i with
  | Text _ _ => true
  | _ => false
  end.

(** ** cleanInlines *)

(** [prev.type === "br" || (prev.type === "text" &&
     prev.content[prev.content.length - 1] === " ")], false without [prev]. *)
Definition hasTrailingSpace (prev : option Inline) : bool :=
  match prev with
  | Some Br => true
  | Some (Text c _) => endsWithSpace c
  | _ => false
  end.

(** What the reducer of [cleanInlines] does to one unit, in place:
    whitespace runs become one space, and the leading space goes when the
    unit before has a trailing one. *)
Definition cleanUnit (prev : option Inline) (inline : Inline) : Inline :=
  match inline with
  | Text content styles =>
      let content := collapseSpaces content in
      let content :=
        if startsWithSpace content && hasTrailingSpace prev
        then substr1 content else content in
      Text content styles
  | _ => inline
  end.

(** [if (inline.type !== "text") m.push(inline); else ... if
    (inline.content) m.push(inline)] *)
Definition kept (inline : Inline) : bool :=
  match inline with
  | Text content _ => truthy content
  | _ => true
  end.

(** The [reduce] of [cleanInlines]. [prev] is [inlines[i-1]]: the unit
    before in the array that is being read, as the reducer left it, whether
    or not it was pushed to the result. *)
Fixpoint cleanReduce (prev : option Inline) (inlines : list Inline)
  : list Inline :=
  match inlines with
  | [] => []
  | inline :: rest =>
      let inline' := cleanUnit prev inline in
      (if kept inline' then [inline'] else [])
        ++ cleanReduce (Some inline') rest
  end.

(** The first [while]: trim leading whitespace. *)
Fixpoint trimLeading (inlines : list Inline) : list Inline :=
  match inlines with
  | Text content styles :: rest =>
      let content := trimStart content in
      if truthy content then Text content styles :: rest
      else trimLeading rest
  | _ => inlines
  end.

(** The second [while], read from the last unit backwards: [r] is the
    array reversed. *)
Fixpoint trimTrailingRev (r : list Inline) : list Inline :=
  match r with
  | Text content styles :: rest =>
      let content := trimEnd content in
      if truthy content then Text content styles :: rest
      else trimTrailingRev rest
  | _ => r
  end.

Definition trimTrailing (inlines : list Inline) : list Inline :=
  rev (trimTrailingRev (rev inlines)).

Definition cleanInlines (inlines : list Inline) : list Inline :=
  trimTrailing (trimLeading (cleanReduce None inlines)).

(** ** The DOM, as the converter reads it *)

(** [Element] holds [tagName.toLowerCase()], the attributes and
    [childNodes]; [TextNode] (nodeType 3) holds its text; [OtherNode] is a
    node of any other type (a comment, a processing instruction). *)
Inductive Node : Type :=
| Element (tagName : jsstring) (attributes : list (jsstring * jsstring))
          (childNodes : list Node)
| TextNode (data : jsstring)
| OtherNode (nodeType : N).

(** A node as the converter holds it, by reference: [ancestors] are the
    tag names met along [parentNode], nearest first. *)
Record NodeRef : Type := mkRef {
  ancestors : list jsstring;
  node : Node
}.

(** Modelled from the spec: the attribute lookup of the DOM facade,
    [el.getAttribute(name)], whose value is [null] when [el] has no such
    attribute (the spec: the src attribute value, possibly absent). *)
Fixpoint getAttribute (attrs : list (jsstring * jsstring)) (name : jsstring)
  : option jsstring :=
  match attrs with
  | [] => None
  | (k, v) :: rest => if eqb k name then Some v else getAttribute rest name
  end.

(** Modelled from the spec: [utils.getTextContent] of the DOM facade, which
    is not part of the sources; the spec calls it the concatenated
    descendant text content. *)
Fixpoint getTextContent (n : Node) : jsstring :=
  match n with
  | Element _ _ children => concat (map getTextContent children)
  | TextNode data => data
  | OtherNode _ => []
  end.

(** Modelled from the spec: selector matching of the DOM facade. A
    selector of the converter is a group of tag names ([b, strong]), and
    [utils.matchesSelector] on an element compares its tag. *)
Definition Selector := list jsstring.

Definition matchesSelector (n : Node) (sel : Selector) : bool :=
  match n with
  | Element tag _ _ => contains sel tag
  | _ => false
  end.

(** Modelled from the spec: the subtree query of the DOM facade,
    [n.querySelector(sel)], the first descendant in document order that
    matches. *)
Fixpoint querySelector (sel : Selector) (n : Node) : option Node :=
  match n with
  | Element _ _ children =>
      (fix first (l : list Node) : option Node :=
         match l with
         | [] => None
         | c :: r =>
             if matchesSelector c sel then Some c
             else match querySelector sel c with
                  | Some d => Some d
                  | None => first r
                  end
         end) children
  | _ => None
  end.

(** ** Tables *)

Definition block_elements : list jsstring :=
  map str [ "article"; "aside"; "blockquote"; "body"; "button"; "canvas";
            "caption"; "col"; "colgroup"; "dd"; "div"; "dl"; "dt"; "embed";
            "fieldset"; "figcaption"; "figure"; "footer"; "form"; "h1"; "h2";
            "h3"; "h4"; "h5"; "h6"; "header"; "hgroup"; "hr"; "li"; "map";
            "object"; "ol"; "output"; "p"; "pre"; "progress"; "section";
            "table"; "tbody"; "textarea"; "tfoot"; "th"; "thead"; "tr"; "ul";
            "video" ]%string.

Definition empty_tags : Selector :=
  map str [ "hr"; "br"; "img"; "video"; "audio" ]%string.

Definition markdown_block_tags : list jsstring :=
  map str [ "blockquote"; "h1"; "h2"; "h3"; "h4"; "h5"; "h6"; "hr"; "li";
            "pre"; "p" ]%string.

Definition markdown_empty_blocks : list jsstring := [ str "hr" ].

Definition markdown_inline_tags : list (Selector * jsstring) :=
  [ (map str [ "b"; "strong" ]%string, str "bold");
    (map str [ "i"; "em" ]%string, str "italic");
    ([ str "code" ], str "code") ].

Definition NL : char16 := 10%N.

Definition markdown_syntax : list (jsstring * jsstring) :=
  [ (str "hr", str "- - -");
    (str "br", [SP; SP; NL]);
    (str "h1", str "# ");
    (str "h2", str "## ");
    (str "h3", str "### ");
    (str "h4", str "#### ");
    (str "h5", str "##### ");
    (str "h6", str "###### ");
    (str "ul", str "* ");
    (str "ol", str "1. ");
    (str "blockquote", str "> ");
    (str "pre", str "  ");
    (str "p", str "");
    (str "bold", str "**");
    (str "italic", str "_");
    (str "code", str "`") ].

(** [markdown_syntax[key]]. *)
Fixpoint lookup (key : jsstring) (table : list (jsstring * jsstring))
  : option jsstring :=
  match table with
  | [] => None
  | (k, v) :: rest => if eqb k key then Some v else lookup key rest
  end.

(** [markdown_syntax[key] || ""], for a [key] that is an own key of the
    table or no property of it at all, as the block types and the style
    names of [parse] are. A name that the table inherits from
    [Object.prototype] ([constructor], [toString], ...) is not in this
    model. *)
Definition syntax (key : jsstring) : jsstring :=
  match lookup key markdown_syntax with
  | Some v => if truthy v then v else []
  | None => []
  end.

(** ** Blocks *)

(** A block while the tree is walked: [{ type, nodes }]. *)
Record RawBlock : Type := mkRaw {
  rawType : jsstring;
  rawNodes : list NodeRef
}.

(** A block from the compaction on: [nodes] is deleted from an empty block
    ([hr]) there and from every block at the end; [content] is set by the
    inline pass. *)
Record Block : Type := mkBlock {
  type : jsstring;
  nodes : option (list NodeRef);
  content : option (list Inline)
}.

(** ** STEP 1: extractBlocks and compactBlocks *)

(** The two variables of the closure of [extractBlocks]. [currentBlock]
    refers to a block by its position in [blocks]; a position that is not
    in [blocks] stands for a block that is in it no more. *)
Record ExtractState : Type := mkState {
  blocks : list RawBlock;
  currentBlock : option nat
}.

(** [currentBlock.nodes.push(el)] *)
Fixpoint pushNode (i : nat) (el : NodeRef) (bs : list RawBlock)
  : list RawBlock :=
  match bs, i with
  | [], _ => []
  | b :: r, O => mkRaw (rawType b) (rawNodes b ++ [el]) :: r
  | b :: r, S j => b :: pushNode j el r
  end.

Definition addInline (el : NodeRef) (st : ExtractState) : ExtractState :=
  match currentBlock st with
  | Some i => mkState (pushNode i el (blocks st)) (Some i)
  | None => mkState (blocks st ++ [ mkRaw (str "p") [ el ] ]) None
  end.

(** [currentBlock != null && !currentBlock.nodes.length &&
     !_.contains(markdown_empty_blocks, currentBlock.type) &&
     _.last(blocks) === currentBlock] *)
Definition currentIsEmptyLast (st : ExtractState) : bool :=
  match currentBlock st with
  | Some i =>
      match nth_error (blocks st) i with
      | Some b =>
          match rawNodes b with [] => true | _ => false end
          && negb (contains markdown_empty_blocks (rawType b))
          && (S i =? length (blocks st))
      | None => false
      end
  | None => false
  end.

(** [extract(el)], with the ancestors of [el]. *)
Fixpoint extract (anc : list jsstring) (el : Node) (st : ExtractState)
  : ExtractState :=
  match el with
  | Element tag _ children =>
      if negb (contains block_elements tag) then addInline (mkRef anc el) st
      else
        (* remove the current block if it's empty *)
        let bs := if currentIsEmptyLast st then removelast (blocks st)
                  else blocks st in
        (* add a new block *)
        let new := mkRaw (if contains markdown_block_tags tag then tag
                          else str "p") [] in
        let st := mkState (bs ++ [ new ]) (Some (length bs)) in
        (* process children *)
        let st := fold_left (fun s child => extract (tag :: anc) child s)
                            children st in
        (* reset current block *)
        mkState (blocks st) None
  | _ => addInline (mkRef anc el) st
  end.

Definition extractBlocks (anc : list jsstring) (n : Node) : list RawBlock :=
  blocks (extract anc n (mkState [] None)).

(** The predicate of [_.some] in [compactBlocks]. *)
Definition meaningful (n : NodeRef) : bool :=
  truthy (trim (getTextContent (node n)))
  || match node n with
     | Element _ _ _ =>
         matchesSelector (node n) empty_tags
         || match querySelector empty_tags (node n) with
            | Some _ => true
            | None => false
            end
     | _ => false
     end.

Definition compactBlocks (bs : list RawBlock) : list Block :=
  flat_map
    (fun b =>
       let emptyBlock := contains markdown_empty_blocks (rawType b) in
       (* delete nodes array if this is an empty block *)
       let b' := mkBlock (rawType b)
                         (if emptyBlock then None else Some (rawNodes b))
                         None in
       (* make sure the block isn't empty *)
       if emptyBlock || existsb meaningful (rawNodes b) then [ b' ] else [])
    bs.

(** ** STEP 2: extractInlines *)

(** [!!closest(el, sel)] for a text node [el]: the node itself is no
    element, so the answer lies with its ancestors. *)
Definition closest (anc : list jsstring) (sel : Selector) : bool :=
  existsb (contains sel) anc.

(** [_.filter(markdown_inline_tags, function(s, sel) { return
    !!closest(el, sel); })]: the style names, in the order of the table. *)
Definition activeStylesOf (anc : list jsstring) : list jsstring :=
  map snd (filter (fun entry => closest anc (fst entry)) markdown_inline_tags).

(** [_.isEqual] on two arrays of strings. *)
Fixpoint isEqual (a b : list jsstring) : bool :=
  match a, b with
  | [], [] => true
  | x :: a', y :: b' => eqb x y && isEqual a' b'
  | _, _ => false
  end.

Section Parse.

(** [Entities.normalizeXML(text, "html")], of the [special-entities]
    package. *)
Variable normalizeXML : jsstring -> jsstring.

Fixpoint extractInlines (anc : list jsstring) (el : Node)
         (inlines : list Inline) : list Inline :=
  match el with
  | Element tag attrs children =>
      if eqb tag (str "br") then inlines ++ [ Br ]
      else if eqb tag (str "img")
      then inlines ++ [ Img (getAttribute attrs (str "src")) ]
      else fold_left (fun m n => extractInlines (tag :: anc) n m)
                     children inlines
  | TextNode text =>
      let content := normalizeXML text in
      let styles := activeStylesOf anc in
      match last inlines with
      | Some (Text c s) =>
          if isEqual s styles
          then removelast inlines ++ [ Text (c ++ content) s ]
          else inlines ++ [ Text content styles ]
      | _ => inlines ++ [ Text content styles ]
      end
  | OtherNode _ => inlines
  end.

(** [b.nodes.reduce(function(m, n) { return extractInlines(n, m); }, [])] *)
Definition extractAll (ns : list NodeRef) : list Inline :=
  fold_left (fun m n => extractInlines (ancestors n) (node n) m) ns [].

(** The body of the [forEach] that sets [content]; [None] is the
    TypeError of reading [nodes] where it has been deleted. *)
Definition addContent (b : Block) : option Block :=
  if contains markdown_empty_blocks (type b) then Some b
  else match nodes b with
       | Some ns =>
           Some (mkBlock (type b) (nodes b)
                         (Some (cleanInlines (extractAll ns))))
       | None => None
       end.

(** STEP 3, the filter: [_.contains(markdown_empty_blocks, b.type) ||
    b.content.length]; [None] is the TypeError of [undefined.length]. *)
Definition hasContent (b : Block) : option bool :=
  if contains markdown_empty_blocks (type b) then Some true
  else match content b with
       | Some c => Some (negb (length c =? 0))
       | None => None
       end.

Fixpoint mapM {A B : Type} (f : A -> option B) (l : list A)
  : option (list B) :=
  match l with
  | [] => Some []
  | x :: r =>
      match f x with
      | Some y => match mapM f r with
                  | Some ys => Some (y :: ys)
                  | None => None
                  end
      | None => None
      end
  end.

Fixpoint filterM {A : Type} (f : A -> option bool) (l : list A)
  : option (list A) :=
  match l with
  | [] => Some []
  | x :: r =>
      match f x with
      | Some keep => match filterM f r with
                     | Some ys => Some (if keep then x :: ys else ys)
                     | None => None
                     end
      | None => None
      end
  end.

(** [delete b.nodes] *)
Definition deleteNodes (b : Block) : Block :=
  mkBlock (type b) None (content b).

(** [html2md.parse] from [doc.body], past the check of the window;
    [bodyAnc] holds the ancestors of the body. [None] stands for the
    TypeError of one of the two reads above, of [b.nodes] and of
    [b.content]. The [Error] of a missing window is raised before this
    point and is not in the model, and neither is a limit of the engine,
    such as the depth of the recursion of [extract]. *)
Definition parseFrom (bodyAnc : list jsstring) (body : Node)
  : option (list Block) :=
  let blocks := compactBlocks (extractBlocks bodyAnc body) in
  match mapM addContent blocks with
  | Some blocks =>
      match filterM hasContent blocks with
      | Some blocks => Some (map deleteNodes blocks)
      | None => None
      end
  | None => None
  end.

(** In a document the body hangs below [html]. *)
Definition parse (body : Node) : option (list Block) :=
  parseFrom [ str "html" ] body.

End Parse.

(** ** toMarkdown *)

(** [_.difference(a, b)], also [_.without(a, b...)]. *)
Definition difference (a b : list jsstring) : list jsstring :=
  filter (fun v => negb (contains b v)) a.

(** The two variables [activeStyles] and [content] of a block that is
    being rendered. *)
Record RenderState : Type := mkRender {
  activeStyles : list jsstring;
  rendered : jsstring
}.

Definition updateStyles (styles : list jsstring) (st : RenderState)
  : RenderState :=
  (* close active styles *)
  let close := difference (activeStyles st) styles in
  let active := difference (activeStyles st) close in
  let out := rendered st ++ concat (map syntax (rev close)) in
  (* open new styles *)
  let opened := difference styles active in
  mkRender (active ++ opened) (out ++ concat (map syntax opened)).

(** [value + ""] on what an attribute lookup returned. *)
Definition toString (v : option jsstring) : jsstring :=
  match v with
  | Some s => s
  | None => str "null"
  end.

Definition renderInline (st : RenderState) (inline : Inline) : RenderState :=
  match inline with
  | Text content styles =>
      let st := updateStyles styles st in
      mkRender (activeStyles st) (rendered st ++ content)
  | Br => mkRender (activeStyles st) (rendered st ++ syntax (str "br"))
  | Img src =>
      mkRender (activeStyles st)
               (rendered st ++ str "![](" ++ toString src ++ str ")")
  end.

(** The text of the inline units of a block, styles closed at the end. *)
Definition renderContent (c : option (list Inline)) : jsstring :=
  match c with
  | Some inlines =>
      rendered (updateStyles [] (fold_left renderInline inlines
                                           (mkRender [] [])))
  | None => []
  end.

(** The types with a [case] in the [switch] of [toMarkdown]. *)
Definition rendered_types : list jsstring :=
  map str [ "blockquote"; "pre"; "p"; "hr"; "h1"; "h2"; "h3"; "h4"; "h5";
            "h6" ]%string.

(** The callback of [tree.map]; [None] is [undefined], what a function
    returns that falls off its [switch]. *)
Definition renderBlock (block : Block) : option jsstring :=
  let content := renderContent (content block) in
  if contains rendered_types (type block)
  then Some (syntax (type block) ++ content)
  else None.

(** [array.join(sep)]: [undefined] elements count as empty strings. *)
Fixpoint join (sep : jsstring) (l : list (option jsstring)) : jsstring :=
  match l with
  | [] => []
  | [x] => match x with Some s => s | None => [] end
  | x :: r => match x with Some s => s | None => [] end ++ sep ++ join sep r
  end.

Definition toMarkdown (tree : list Block) : jsstring :=
  join [NL; NL] (map renderBlock tree).

(** [html2md(doc)], on the body of the document. *)
Definition html2md (normalizeXML : jsstring -> jsstring) (body : Node)
  : option jsstring :=
  option_map toMarkdown (parse normalizeXML body).

(** ** The earlier variant of the Block Extractor

    [lib/html2md.js] has no [currentBlock]: every call of [extractBlocks]
    reads [_.last(blocks)] when it starts, appends inline nodes to that
    block, and pops it before a new block when it is empty, an [hr]
    included. *)

Module Legacy.

Definition addInline (el : NodeRef) (blocks : list RawBlock)
  : list RawBlock :=
  match last blocks with
  | Some lastBlock =>
      removelast blocks
        ++ [ mkRaw (rawType lastBlock) (rawNodes lastBlock ++ [ el ]) ]
  | None => blocks ++ [ mkRaw (str "p") [ el ] ]
  end.

(** [lastBlock && !lastBlock.nodes.length] *)
Definition lastIsEmpty (blocks : list RawBlock) : bool :=
  match last blocks with
  | Some lastBlock => match rawNodes lastBlock with [] => true | _ => false end
  | None => false
  end.

Fixpoint extractBlocks (anc : list jsstring) (el : Node)
         (blocks : list RawBlock) : list RawBlock :=
  match el with
  | Element tag _ children =>
      if negb (contains block_elements tag)
      then addInline (mkRef anc el) blocks
      else
        (* remove the last block if it's empty *)
        let blocks := if lastIsEmpty blocks then removelast blocks
                      else blocks in
        (* add a new block *)
        let blocks :=
          blocks ++ [ mkRaw (if contains markdown_block_tags tag then tag
                             else str "p") [] ] in
        (* process children *)
        fold_left (fun bs child => extractBlocks (tag :: anc) child bs)
                  children blocks
  | _ => addInline (mkRef anc el) blocks
  end.

(** The table of the earlier variant: no style markers, and an [hr]
    entry that nothing reads. *)
Definition markdown_syntax : list (jsstring * jsstring) :=
  [ (str "hr", str "- - -" ++ [NL; NL]);
    (str "br", [SP; SP; NL]);
    (str "h1", str "# ");
    (str "h2", str "## ");
    (str "h3", str "### ");
    (str "h4", str "#### ");
    (str "h5", str "##### ");
    (str "h6", str "###### ");
    (str "ul", str "* ");
    (str "ol", str "1. ");
    (str "blockquote", str "> ");
    (str "pre", str "  ");
    (str "p", str "") ].

(** [markdown_syntax[key] || ""], for a [key] that is an own key of the
    table or no property of it at all. *)
Definition syntax (key : jsstring) : jsstring :=
  match lookup key markdown_syntax with
  | Some v => if truthy v then v else []
  | None => []
  end.

Definition convertInline (inline : Inline) : jsstring :=
  match inline with
  | Text content _ => content
  | Br => match lookup (str "br") markdown_syntax with
          | Some v => v
          | None => []   (* [undefined], which [join] prints as nothing *)
          end
  | Img src => str "![](" ++ toString src ++ str ")"
  end.

Definition rendered_types : list jsstring :=
  map str [ "blockquote"; "pre"; "p"; "h1"; "h2"; "h3"; "h4"; "h5";
            "h6" ]%string.

(** The callback of [tree.map]: the outer [None] is the TypeError of
    [block.content.map] on a block without content, the inner one the
    [undefined] of a type without a [case]. *)
Definition renderBlock (block : Block) : option (option jsstring) :=
  match content block with
  | Some inlines =>
      let content := concat (map convertInline inlines) in
      Some (if contains rendered_types (type block)
            then Some (syntax (type block) ++ content)
            else None)
  | None => None
  end.

Definition toMarkdown (tree : list Block) : option jsstring :=
  option_map (join [NL; NL]) (mapM renderBlock tree).

End Legacy.

(** * Predicates and examples *)

(** ** Whitespace *)

(** [s] begins with a whitespace character. *)
Definition headIsSpace (s : jsstring) : bool :=
  match s with
  | c :: _ => isSpace c
  | [] => false
  end.

(** [s] has two whitespace characters in a row. *)
Fixpoint hasSpaceRun (s : jsstring) : bool :=
  match s with
  | c :: r =>
      (isSpace c && match r with d :: _ => isSpace d | [] => false end)
      || hasSpaceRun r
  | [] => false
  end.

(** Every whitespace character of [s] is a plain space, and none is
    followed by another. *)
Fixpoint spacesNormal (s : jsstring) : bool :=
  match s with
  | [] => true
  | c :: r =>
      (if isSpace c then char_eqb c SP && negb (headIsSpace r) else true)
      && spacesNormal r
  end.

(** ** Sequences of inline units *)

(** A text unit as the cleaner leaves it: not empty, whitespace normal. *)
Definition textOK (u : Inline) : Prop :=
  match u with
  | Text c _ => truthy c = true /\ spacesNormal c = true
  | _ => True
  end.

(** [u] is a text unit whose content begins with a space. *)
Definition leadingSpace (u : Inline) : bool :=
  match u with
  | Text c _ => startsWithSpace c
  | _ => false
  end.

(** Some pair of neighbours [x], [y] of [l] satisfies [R x y]. *)
Fixpoint adjacent (R : Inline -> Inline -> bool) (l : list Inline) : bool :=
  match l with
  | x :: r => match r with y :: _ => R x y | [] => false end || adjacent R r
  | [] => false
  end.

(** The pair the reducer of [cleanInlines] would change: a leading space
    after a trailing one. *)
Definition doubledSpace (x y : Inline) : bool :=
  leadingSpace y && hasTrailingSpace (Some x).

(** The first unit of [l] keeps its leading space after [prev]. *)
Definition settledAfter (prev : option Inline) (l : list Inline) : bool :=
  match l with
  | u :: _ => negb (leadingSpace u && hasTrailingSpace prev)
  | [] => true
  end.

(** The first unit of [l], when it is text, begins with no whitespace. *)
Definition firstOK (l : list Inline) : Prop :=
  match l with
  | Text c _ :: _ => headIsSpace c = false
  | _ => True
  end.

(** The last unit of [l], when it is text, ends with no whitespace. *)
Definition lastOK (l : list Inline) : Prop :=
  match rev l with
  | Text c _ :: _ => headIsSpace (rev c) = false
  | _ => True
  end.

(** Both loops of [cleanInlines] have one shape: strip the unit at the
    end that is read, drop it when nothing is left, stop otherwise. *)
Fixpoint trimUnits (strip : jsstring -> jsstring) (l : list Inline)
  : list Inline :=
  match l with
  | Text c s :: rest =>
      if truthy (strip c) then Text (strip c) s :: rest
      else trimUnits strip rest
  | _ => l
  end.

(** The number of characters in the text units of [l]. *)
Definition unitSize (u : Inline) : nat :=
  match u with
  | Text c _ => length c
  | _ => 0
  end.

Definition contentSize (l : list Inline) : nat :=
  list_sum (map unitSize l).

(** ** Style sets *)

(** Two style arrays hold the same styles, order and repeats apart. *)
Definition sameStyleSet (a b : list jsstring) : bool :=
  forallb (contains b) a && forallb (contains a) b.

(** Two text units with the same style set. *)
Definition sameStyles (x y : Inline) : bool :=
  match x, y with
  | Text _ s1, Text _ s2 => sameStyleSet s1 s2
  | _, _ => false
  end.

(** A unit as the extractor makes it: the styles of a text unit are those
    of some chain of ancestors. *)
Definition extractedUnit (u : Inline) : Prop :=
  match u with
  | Text _ s => exists anc, s = activeStylesOf anc
  | _ => True
  end.

(** The style array of a text node below a bold, an italic, a code
    element. *)
Definition stylesOfFlags (bold italic code : bool) : list jsstring :=
  (if bold then [ str "bold" ] else [])
    ++ (if italic then [ str "italic" ] else [])
    ++ (if code then [ str "code" ] else []).

(** The sequences the extractor builds: every unit is its own, and no two
    neighbouring text units have the same style set. *)
Definition Extracted (l : list Inline) : Prop :=
  Forall extractedUnit l /\ adjacent sameStyles l = false.

(** ** States of the Block Extractor *)

(** The open block is the block pushed last. *)
Definition currentIsLast (st : ExtractState) : Prop :=
  forall i, currentBlock st = Some i -> S i = length (blocks st).

(** The state [st] with the blocks [pre] in front of its own: the open
    block keeps its place among the blocks of [st]. *)
Definition shiftState (pre : list RawBlock) (st : ExtractState)
  : ExtractState :=
  mkState (pre ++ blocks st)
          (option_map (fun i => length pre + i) (currentBlock st)).

(** ** What a tree holds *)

(** [n] is an element with a block-level tag. *)
Definition isBlockElement (n : Node) : bool :=
  match n with
  | Element tag _ _ => contains block_elements tag
  | _ => false
  end.

(** The text of the text nodes of [n], itself included, in document
    order. *)
Fixpoint textNodes (n : Node) : list jsstring :=
  match n with
  | Element _ _ children => concat (map textNodes children)
  | TextNode text => [ text ]
  | OtherNode _ => []
  end.

(** A block as the extractor builds it: its type is one of the Markdown
    block types, and it owns no block-level element. *)
Definition blockOK (b : RawBlock) : Prop :=
  contains markdown_block_tags (rawType b) = true
  /\ Forall (fun r => isBlockElement (node r) = false) (rawNodes b).

(** The nodes the blocks [bs] own, in the order of the blocks. *)
Definition ownedNodes (bs : list RawBlock) : list NodeRef :=
  concat (map rawNodes bs).

(** The topmost nodes below [n], itself included, that are no block-level
    elements, in document order, each with its ancestors. *)
Fixpoint inlineRoots (anc : list jsstring) (n : Node) : list NodeRef :=
  match n with
  | Element tag _ children =>
      if contains block_elements tag
      then concat (map (inlineRoots (tag :: anc)) children)
      else [ mkRef anc n ]
  | _ => [ mkRef anc n ]
  end.

(** The paragraph [addInline] pushes for a node when no block is open. *)
Definition paragraphOf (anc : list jsstring) (n : Node) : RawBlock :=
  mkRaw (str "p") [ mkRef anc n ].

(** A character that is no whitespace. *)
Definition visible (c : char16) : bool := negb (isSpace c).

(** The text of the units of [l], in order. *)
Definition textOf (l : list Inline) : jsstring :=
  concat (map (fun u => match u with Text c _ => c | _ => [] end) l).

(** The units of [l] that are no text: line breaks and images. *)
Definition media (l : list Inline) : list Inline :=
  filter (fun u => negb (isText u)) l.

(** The text nodes below [n] in document order, each normalised, the
    subtrees of [br] and [img] left out. *)
Fixpoint nodeText (normalizeXML : jsstring -> jsstring) (n : Node)
  : jsstring :=
  match n with
  | Element tag _ children =>
      if eqb tag (str "br") || eqb tag (str "img") then []
      else concat (map (nodeText normalizeXML) children)
  | TextNode text => normalizeXML text
  | OtherNode _ => []
  end.

(** The [br] and [img] elements below [n] in document order, as units. *)
Fixpoint nodeMedia (n : Node) : list Inline :=
  match n with
  | Element tag attrs children =>
      if eqb tag (str "br") then [ Br ]
      else if eqb tag (str "img")
      then [ Img (getAttribute attrs (str "src")) ]
      else concat (map nodeMedia children)
  | _ => []
  end.

(** A text unit that holds whitespace only. *)
Definition blankText (u : Inline) : Prop :=
  match u with
  | Text c _ => forallb isSpace c = true
  | _ => False
  end.

(** The markers of the styles [s], one after the other. *)
Definition markers (s : list jsstring) : jsstring :=
  concat (map syntax s).

(** A unit without styles: a [br], an [img], or text in no style. *)
Definition unstyled (u : Inline) : Prop :=
  match u with
  | Text _ s => s = []
  | _ => True
  end.

(** ** The entity normaliser *)

(** Letters, digits and spaces: text with no entity in it. *)
Definition plainText (s : jsstring) : bool :=
  forallb (fun c => (c =? 32) || ((48 <=? c) && (c <=? 57))
                    || ((65 <=? c) && (c <=? 90))
                    || ((97 <=? c) && (c <=? 122)))%N s.

(** What the examples need of [Entities.normalizeXML]: it rewrites
    entities, and leaves text that holds none as it is. *)
Definition NormalizesPlain (normalizeXML : jsstring -> jsstring) : Prop :=
  forall s, plainText s = true -> normalizeXML s = s.

(** The normaliser on text without entities, where it has nothing to
    rewrite. *)
Definition plainNormalize (s : jsstring) : jsstring := s.

(** ** Documents and sequences of the examples *)

(** An element without attributes, a text node. *)
Definition elem (tag : string) (children : list Node) : Node :=
  Element (str tag) [] children.

Definition txt (s : string) : Node := TextNode (str s).

(** Units with tabs, line feeds and a no-break space, around a [br] and
    an [img]. *)
Definition sample_inlines : list Inline :=
  [ Text [SP; 9%N; SP] [];
    Text (str "  a " ++ [NL; 160%N] ++ str " b  ") [ str "bold" ];
    Br;
    Text (str " c") [];
    Img (Some (str "x.png"));
    Text [SP; NL] [ str "italic" ] ].

(** The sequence of [<b>a </b> <b> b</b>]: the unit in the middle is all
    whitespace. *)
Definition spaced_inlines : list Inline :=
  [ Text (str "a ") [ str "bold" ];
    Text (str " ") [];
    Text (str " b") [ str "bold" ] ].

(** [<p><b>a </b> <b>b</b></p>] *)
Definition doc_spaced_bold : Node :=
  elem "body" [ elem "p" [ elem "b" [ txt "a " ]; txt " ";
                           elem "b" [ txt "b" ] ] ].

(** [<p><b>a</b><b>b</b></p>] *)
Definition doc_two_bold : Node :=
  elem "body" [ elem "p" [ elem "b" [ txt "a" ]; elem "b" [ txt "b" ] ] ].

(** [<img>], no attribute. *)
Definition doc_img_no_src : Node := elem "body" [ elem "img" [] ].

(** [<ul><li>x</li></ul>] and its block. *)
Definition doc_list : Node :=
  elem "body" [ elem "ul" [ elem "li" [ txt "x" ] ] ].

Definition li_block : Block :=
  mkBlock (str "li") None (Some [ Text (str "x") [] ]).

(** [<hr>] *)
Definition doc_hr : Node := elem "body" [ elem "hr" [] ].

(** [<div><p></p><img src="x.png"></div>] *)
Definition img_x : Node :=
  Element (str "img") [ (str "src", str "x.png") ] [].

Definition doc_div_img : Node :=
  elem "body" [ elem "div" [ elem "p" []; img_x ] ].

(** An open block that is empty and not the last one: no state that
    [extractBlocks] reaches. *)
Definition state_empty_not_last : ExtractState :=
  mkState [ mkRaw (str "p") [];
            mkRaw (str "h1") [ mkRef [ str "h1" ] (txt "A") ] ]
          (Some 0).

(** An open block that is empty and the last one. *)
Definition state_empty_last : ExtractState :=
  mkState [ mkRaw (str "h1") [ mkRef [ str "h1" ] (txt "A") ];
            mkRaw (str "p") [] ]
          (Some 1).

(** * Properties *)

(** ** Whitespace in strings *)

Lemma isSpace_SP : isSpace SP = true.
Proof. reflexivity. Qed.

Lemma char_eqb_eq (a b : char16) : char_eqb a b = true <-> a = b.
Proof. apply N.eqb_eq. Qed.

Lemma startsWithSpace_head (s : jsstring) :
  startsWithSpace s = true -> headIsSpace s = true.
Proof.
  destruct s as [|c r]; simpl; [discriminate|].
  intros H. apply char_eqb_eq in H. subst c. reflexivity.
Qed.

Lemma collapseFrom_normal (s : jsstring) : forall inRun,
  spacesNormal (collapseFrom inRun s) = true
  /\ (inRun = true -> headIsSpace (collapseFrom inRun s) = false).
Proof.
  induction s as [|c r IH]; intros inRun; simpl.
  - split; reflexivity.
  - destruct (isSpace c) eqn:Hc.
    + destruct inRun.
      * apply IH.
      * destruct (IH true) as [Hn Hh]. split; [|discriminate].
        simpl. rewrite Hn, (Hh eq_refl). reflexivity.
    + destruct (IH false) as [Hn _]. split.
      * simpl. rewrite Hc, Hn. reflexivity.
      * intros _. simpl. exact Hc.
Qed.

Lemma collapseSpaces_normal (s : jsstring) :
  spacesNormal (collapseSpaces s) = true.
Proof. apply collapseFrom_normal. Qed.

Lemma spacesNormal_tl (s : jsstring) :
  spacesNormal s = true -> spacesNormal (tl s) = true.
Proof.
  destruct s as [|c r]; simpl; [trivial|].
  intros H. apply andb_prop in H. tauto.
Qed.

Lemma spacesNormal_dropSpaces (s : jsstring) :
  spacesNormal s = true -> spacesNormal (dropSpaces s) = true.
Proof.
  induction s as [|c r IH]; simpl; [trivial|].
  intros H. destruct (isSpace c) eqn:Hc.
  - apply IH. apply andb_prop in H. tauto.
  - simpl. rewrite Hc. exact H.
Qed.

Lemma headIsSpace_app (a b : jsstring) :
  a <> [] -> headIsSpace (a ++ b) = headIsSpace a.
Proof. destruct a; [congruence | reflexivity]. Qed.

Lemma spacesNormal_prefix (a b : jsstring) :
  spacesNormal (a ++ b) = true -> spacesNormal a = true.
Proof.
  induction a as [|c r IH]; simpl; [trivial|].
  intros H. apply andb_prop in H. destruct H as [H1 H2].
  rewrite (IH H2), andb_true_r.
  destruct (isSpace c); [|reflexivity].
  destruct r as [|d r']; simpl in *.
  - apply andb_prop in H1. destruct H1 as [H1 _]. rewrite H1. reflexivity.
  - exact H1.
Qed.

Lemma dropSpaces_suffix (s : jsstring) :
  exists t, s = t ++ dropSpaces s.
Proof.
  induction s as [|c r [t IH]]; simpl.
  - exists []. reflexivity.
  - destruct (isSpace c).
    + exists (c :: t). simpl. congruence.
    + exists []. reflexivity.
Qed.

Lemma trimEnd_prefix (s : jsstring) :
  exists t, s = trimEnd s ++ t.
Proof.
  unfold trimEnd. destruct (dropSpaces_suffix (rev s)) as [t Ht].
  exists (rev t). rewrite <- rev_app_distr, <- Ht, rev_involutive.
  reflexivity.
Qed.

Lemma spacesNormal_trimEnd (s : jsstring) :
  spacesNormal s = true -> spacesNormal (trimEnd s) = true.
Proof.
  intros H. destruct (trimEnd_prefix s) as [t Ht].
  rewrite Ht in H. eapply spacesNormal_prefix; eauto.
Qed.

Lemma spacesNormal_no_run (s : jsstring) :
  spacesNormal s = true -> hasSpaceRun s = false.
Proof.
  induction s as [|c r IH]; simpl; [trivial|].
  intros H. apply andb_prop in H. destruct H as [H1 H2].
  rewrite (IH H2), orb_false_r.
  destruct (isSpace c); [|reflexivity].
  apply andb_prop in H1. destruct H1 as [_ H1].
  destruct r; simpl in *; [reflexivity|].
  now destruct (isSpace c0).
Qed.

Lemma collapseFrom_fixed (s : jsstring) : forall inRun,
  spacesNormal s = true ->
  (inRun = true -> headIsSpace s = false) ->
  collapseFrom inRun s = s.
Proof.
  induction s as [|c r IH]; intros inRun Hn Hh; simpl; [reflexivity|].
  simpl in Hn, Hh. apply andb_prop in Hn. destruct Hn as [H1 H2].
  destruct (isSpace c) eqn:Hc.
  - apply andb_prop in H1. destruct H1 as [Hsp Hr].
    apply char_eqb_eq in Hsp. subst c.
    destruct inRun; [specialize (Hh eq_refl); discriminate|].
    f_equal. apply IH; [exact H2|].
    intros _. now destruct (headIsSpace r).
  - f_equal. apply IH; [exact H2 | discriminate].
Qed.

Lemma collapseSpaces_fixed (s : jsstring) :
  spacesNormal s = true -> collapseSpaces s = s.
Proof. intros H. apply collapseFrom_fixed; [exact H | discriminate]. Qed.

Lemma dropSpaces_fixed (s : jsstring) :
  headIsSpace s = false -> dropSpaces s = s.
Proof. destruct s as [|c r]; simpl; [trivial|]. now intros ->. Qed.

Lemma trimEnd_fixed (s : jsstring) :
  headIsSpace (rev s) = false -> trimEnd s = s.
Proof.
  intros H. unfold trimEnd. rewrite (dropSpaces_fixed _ H).
  apply rev_involutive.
Qed.

Lemma dropSpaces_head (s : jsstring) : headIsSpace (dropSpaces s) = false.
Proof.
  induction s as [|c r IH]; simpl; [reflexivity|].
  destruct (isSpace c) eqn:Hc; [exact IH | simpl; exact Hc].
Qed.

Lemma trimEnd_last (s : jsstring) : headIsSpace (rev (trimEnd s)) = false.
Proof. unfold trimEnd. rewrite rev_involutive. apply dropSpaces_head. Qed.

(** A non-empty prefix starts as the whole string does. *)
Lemma trimEnd_head (s : jsstring) :
  truthy (trimEnd s) = true -> headIsSpace (trimEnd s) = headIsSpace s.
Proof.
  intros H. destruct (trimEnd_prefix s) as [t Ht].
  rewrite Ht at 2. symmetry. apply headIsSpace_app.
  intros E. rewrite E in H. discriminate.
Qed.

Lemma trimEnd_starts (s : jsstring) :
  truthy (trimEnd s) = true -> startsWithSpace (trimEnd s) = startsWithSpace s.
Proof.
  intros H. destruct (trimEnd_prefix s) as [t Ht].
  rewrite Ht at 2. destruct (trimEnd s); [discriminate | reflexivity].
Qed.

Lemma endsWithSpace_app (a b : jsstring) :
  b <> [] -> endsWithSpace (a ++ b) = endsWithSpace b.
Proof.
  intros Hb. induction a as [|c r IH]; simpl; [reflexivity|].
  rewrite IH. destruct (r ++ b) eqn:E; [|reflexivity].
  apply app_eq_nil in E. tauto.
Qed.

Lemma dropSpaces_ends (s : jsstring) :
  truthy (dropSpaces s) = true ->
  endsWithSpace (dropSpaces s) = endsWithSpace s.
Proof.
  intros H. destruct (dropSpaces_suffix s) as [t Ht].
  rewrite Ht at 2. symmetry. apply endsWithSpace_app.
  intros E. rewrite E in H. discriminate.
Qed.

(** ** Sequences of inline units *)

Lemma trimLeading_units (l : list Inline) :
  trimLeading l = trimUnits trimStart l.
Proof.
  induction l as [|u r IH]; simpl; [reflexivity|].
  destruct u; simpl; try reflexivity. now rewrite IH.
Qed.

Lemma trimTrailing_units (l : list Inline) :
  trimTrailing l = rev (trimUnits trimEnd (rev l)).
Proof.
  unfold trimTrailing. f_equal.
  induction (rev l) as [|u r IH]; simpl; [reflexivity|].
  destruct u; simpl; try reflexivity. now rewrite IH.
Qed.

Section Adjacent.

Variable R : Inline -> Inline -> bool.

Lemma adjacent_snoc (l : list Inline) (y : Inline) :
  adjacent R (l ++ [y])
  = adjacent R l || match last l with Some x => R x y | None => false end.
Proof.
  induction l as [|x r IH]; [reflexivity|].
  destruct r as [|z r'].
  - simpl. now destruct (R x y).
  - change (adjacent R ((x :: z :: r') ++ [y]))
      with (R x z || adjacent R ((z :: r') ++ [y])).
    rewrite IH.
    change (adjacent R (x :: z :: r')) with (R x z || adjacent R (z :: r')).
    change (last (x :: z :: r')) with (last (z :: r')).
    now rewrite orb_assoc.
Qed.

Lemma last_rev (l : list Inline) (x : Inline) :
  last (rev l ++ [x]) = Some x.
Proof.
  induction (rev l) as [|z r IH]; simpl; [reflexivity|].
  rewrite IH. now destruct (r ++ [x]) eqn:E; [destruct r|].
Qed.

Lemma adjacent_rev (l : list Inline) :
  adjacent R (rev l) = adjacent (fun x y => R y x) l.
Proof.
  induction l as [|x r IH]; simpl; [reflexivity|].
  rewrite adjacent_snoc, IH, orb_comm. f_equal.
  destruct r as [|y r']; simpl; [reflexivity|].
  now rewrite last_rev.
Qed.

Lemma adjacent_tail (x : Inline) (l : list Inline) :
  adjacent R (x :: l) = false -> adjacent R l = false.
Proof. simpl. intros H. apply orb_false_elim in H. tauto. Qed.

(** A trim keeps what [R] sees of the unit it strips. *)
Lemma adjacent_trimUnits (strip : jsstring -> jsstring) (l : list Inline) :
  (forall c s y, truthy (strip c) = true ->
                 R (Text (strip c) s) y = R (Text c s) y) ->
  adjacent R l = false -> adjacent R (trimUnits strip l) = false.
Proof.
  intros HR. induction l as [|u r IH]; intros H; [reflexivity|].
  destruct u as [c s| |src]; try exact H.
  simpl. destruct (truthy (strip c)) eqn:Ht.
  - simpl in *. destruct r as [|y r']; [reflexivity|].
    rewrite (HR _ _ _ Ht). exact H.
  - apply IH. eapply adjacent_tail; eauto.
Qed.

End Adjacent.

Lemma adjacent_ext (R R' : Inline -> Inline -> bool) (l : list Inline) :
  (forall x y, R x y = R' x y) -> adjacent R l = adjacent R' l.
Proof.
  intros H. induction l as [|x r IH]; simpl; [reflexivity|].
  rewrite IH. now destruct r; [|rewrite H].
Qed.

Lemma textOK_trimUnits (strip : jsstring -> jsstring) (l : list Inline) :
  (forall c, spacesNormal c = true -> spacesNormal (strip c) = true) ->
  Forall textOK l -> Forall textOK (trimUnits strip l).
Proof.
  intros Hs. induction 1 as [|u r Hu Hr IH]; simpl; [constructor|].
  destruct u as [c s| |src]; try (constructor; assumption).
  destruct (truthy (strip c)) eqn:Ht; [|exact IH].
  constructor; [|exact Hr]. simpl in *. split; [exact Ht|].
  apply Hs. tauto.
Qed.

Lemma cleanUnit_textOK (prev : option Inline) (u : Inline) :
  kept (cleanUnit prev u) = true -> textOK (cleanUnit prev u).
Proof.
  destruct u as [c s| |src]; simpl; trivial.
  intros H. split; [exact H|].
  destruct (startsWithSpace (collapseSpaces c) && hasTrailingSpace prev).
  - apply spacesNormal_tl, collapseSpaces_normal.
  - apply collapseSpaces_normal.
Qed.

Lemma cleanReduce_textOK (l : list Inline) : forall prev,
  Forall textOK (cleanReduce prev l).
Proof.
  induction l as [|u r IH]; intros prev; simpl; [constructor|].
  destruct (kept (cleanUnit prev u)) eqn:Hk; simpl; [|apply IH].
  constructor; [now apply cleanUnit_textOK | apply IH].
Qed.

Lemma trimLeading_textOK (l : list Inline) :
  Forall textOK l -> Forall textOK (trimLeading l).
Proof.
  rewrite trimLeading_units. apply textOK_trimUnits.
  exact spacesNormal_dropSpaces.
Qed.

Lemma trimTrailing_textOK (l : list Inline) :
  Forall textOK l -> Forall textOK (trimTrailing l).
Proof.
  intros H. rewrite trimTrailing_units. apply Forall_rev.
  apply textOK_trimUnits; [exact spacesNormal_trimEnd|].
  now apply Forall_rev.
Qed.

Lemma cleanInlines_textOK (l : list Inline) :
  Forall textOK (cleanInlines l).
Proof.
  apply trimTrailing_textOK, trimLeading_textOK, cleanReduce_textOK.
Qed.

(** *** The two trims *)

Lemma trimLeading_firstOK (l : list Inline) : firstOK (trimLeading l).
Proof.
  induction l as [|u r IH]; simpl; [exact I|].
  destruct u as [c s| |src]; simpl; trivial.
  destruct (truthy (trimStart c)); [apply dropSpaces_head | exact IH].
Qed.

Lemma trimUnits_snoc (strip : jsstring -> jsstring) (l : list Inline)
      (u : Inline) :
  trimUnits strip (l ++ [u])
  = match trimUnits strip l with
    | [] => trimUnits strip [u]
    | x :: r => (x :: r) ++ [u]
    end.
Proof.
  induction l as [|x r IH]; [reflexivity|].
  destruct x as [c s| |src]; try reflexivity.
  simpl. destruct (truthy (strip c)); [reflexivity | exact IH].
Qed.

(** The trailing trim, read from the front of the array. *)
Lemma trimTrailing_cons (u : Inline) (l : list Inline) :
  trimTrailing (u :: l)
  = match trimTrailing l with
    | [] => trimUnits trimEnd [u]
    | x :: r => u :: x :: r
    end.
Proof.
  rewrite !trimTrailing_units.
  change (rev (u :: l)) with (rev l ++ [u]). rewrite trimUnits_snoc.
  destruct (trimUnits trimEnd (rev l)) as [|x r] eqn:E.
  - simpl. destruct u as [c s| |src]; simpl; try reflexivity.
    now destruct (truthy (trimEnd c)).
  - rewrite rev_app_distr.
    remember (rev (x :: r)) as m eqn:E'. destruct m; [|reflexivity].
    apply (f_equal (@rev _)) in E'. rewrite rev_involutive in E'.
    discriminate.
Qed.

Lemma trimTrailing_firstOK (l : list Inline) :
  firstOK l -> firstOK (trimTrailing l).
Proof.
  destruct l as [|u l]; [intros _; exact I|].
  rewrite trimTrailing_cons. intros H.
  destruct (trimTrailing l); [|exact H].
  destruct u as [c s| |src]; simpl; trivial.
  destruct (truthy (trimEnd c)) eqn:Ht; simpl; trivial.
  rewrite (trimEnd_head _ Ht). exact H.
Qed.

Lemma trimUnits_lastOK (l : list Inline) :
  match trimUnits trimEnd l with
  | Text c _ :: _ => headIsSpace (rev c) = false
  | _ => True
  end.
Proof.
  induction l as [|u r IH]; simpl; [exact I|].
  destruct u as [c s| |src]; simpl; trivial.
  destruct (truthy (trimEnd c)); [apply trimEnd_last | exact IH].
Qed.

Lemma trimTrailing_lastOK (l : list Inline) : lastOK (trimTrailing l).
Proof.
  unfold lastOK. rewrite trimTrailing_units, rev_involutive.
  apply trimUnits_lastOK.
Qed.

Lemma trimLeading_doubled (l : list Inline) :
  adjacent doubledSpace l = false ->
  adjacent doubledSpace (trimLeading l) = false.
Proof.
  rewrite trimLeading_units. apply adjacent_trimUnits.
  intros c s y Ht. unfold doubledSpace, trimStart in *. simpl.
  now rewrite (dropSpaces_ends _ Ht).
Qed.

Lemma trimTrailing_doubled (l : list Inline) :
  adjacent doubledSpace l = false ->
  adjacent doubledSpace (trimTrailing l) = false.
Proof.
  intros H. rewrite trimTrailing_units, adjacent_rev.
  apply adjacent_trimUnits.
  - intros c s y Ht. unfold doubledSpace. simpl.
    now rewrite (trimEnd_starts _ Ht).
  - rewrite <- adjacent_rev, rev_involutive. exact H.
Qed.

(** *** Sequences the cleaner leaves alone *)

Lemma cleanUnit_fixed (prev : option Inline) (u : Inline) :
  textOK u -> leadingSpace u && hasTrailingSpace prev = false ->
  cleanUnit prev u = u.
Proof.
  destruct u as [c s| |src]; simpl; trivial.
  intros [_ Hn] Hs. rewrite (collapseSpaces_fixed _ Hn), Hs. reflexivity.
Qed.

Lemma cleanReduce_fixed (l : list Inline) : forall prev,
  Forall textOK l -> settledAfter prev l = true ->
  adjacent doubledSpace l = false ->
  cleanReduce prev l = l.
Proof.
  induction l as [|u r IH]; intros prev Hok Hp Hadj; [reflexivity|].
  inversion Hok as [|? ? Hu Hr]; subst.
  simpl in Hp. apply negb_true_iff in Hp.
  simpl. rewrite (cleanUnit_fixed _ _ Hu Hp).
  assert (Hk : kept u = true) by (destruct u; simpl in *; tauto).
  rewrite Hk. simpl. f_equal. apply IH; [exact Hr| |].
  - destruct r as [|y r']; [reflexivity|].
    simpl in Hadj. apply orb_false_elim in Hadj. destruct Hadj as [Hxy _].
    unfold settledAfter. unfold doubledSpace in Hxy. now rewrite Hxy.
  - eapply adjacent_tail; eauto.
Qed.

Lemma trimLeading_fixed (l : list Inline) :
  Forall textOK l -> firstOK l -> trimLeading l = l.
Proof.
  destruct l as [|u r]; [reflexivity|].
  destruct u as [c s| |src]; try reflexivity.
  intros Hok Hf. inversion Hok as [|? ? Hu _]; subst.
  simpl in *. destruct Hu as [Ht _]. unfold trimStart. rewrite (dropSpaces_fixed _ Hf), Ht.
  reflexivity.
Qed.

Lemma trimTrailing_fixed (l : list Inline) :
  Forall textOK l -> lastOK l -> trimTrailing l = l.
Proof.
  intros Hok Hl. unfold trimTrailing, lastOK in *.
  apply Forall_rev in Hok.
  destruct (rev l) as [|u r] eqn:E.
  - simpl. apply (f_equal (@rev _)) in E. now rewrite rev_involutive in E.
  - assert (Hfix : trimTrailingRev (u :: r) = u :: r).
    { destruct u as [c s| |src]; try reflexivity.
      inversion Hok as [|? ? Hu _]; subst.
      simpl in *. destruct Hu as [Ht _]. rewrite (trimEnd_fixed _ Hl), Ht. reflexivity. }
    rewrite Hfix, <- E. apply rev_involutive.
Qed.

(** A cleaned sequence in which no leading space follows a trailing one
    is cleaned to itself. *)
Lemma cleanInlines_fixed (l : list Inline) :
  Forall textOK l -> firstOK l -> lastOK l ->
  adjacent doubledSpace l = false ->
  cleanInlines l = l.
Proof.
  intros Hok Hf Hl Hadj. unfold cleanInlines.
  rewrite cleanReduce_fixed; trivial.
  - rewrite trimLeading_fixed; trivial. now apply trimTrailing_fixed.
  - destruct l as [|u r]; [reflexivity|]. simpl.
    now rewrite andb_false_r.
Qed.

(** *** The first pass, when it keeps every unit *)

Lemma cleanReduce_length (l : list Inline) : forall prev,
  length (cleanReduce prev l) <= length l.
Proof.
  induction l as [|u r IH]; intros prev; simpl; [lia|].
  specialize (IH (Some (cleanUnit prev u))).
  destruct (kept (cleanUnit prev u)); simpl; lia.
Qed.

Lemma cleanReduce_all_kept (u : Inline) (r : list Inline)
      (prev : option Inline) :
  length (cleanReduce prev (u :: r)) = length (u :: r) ->
  cleanReduce prev (u :: r)
  = cleanUnit prev u :: cleanReduce (Some (cleanUnit prev u)) r
  /\ length (cleanReduce (Some (cleanUnit prev u)) r) = length r.
Proof.
  simpl. pose proof (cleanReduce_length r (Some (cleanUnit prev u))) as Hle.
  destruct (kept (cleanUnit prev u)); simpl; intros H.
  - split; [reflexivity | lia].
  - lia.
Qed.

Lemma cleanUnit_settled (prev : option Inline) (u : Inline) :
  leadingSpace (cleanUnit prev u) && hasTrailingSpace prev = false.
Proof.
  destruct u as [c s| |src]; simpl; trivial.
  pose proof (collapseSpaces_normal c) as Hn.
  destruct (startsWithSpace (collapseSpaces c)) eqn:Hs; simpl.
  - destruct (hasTrailingSpace prev) eqn:Hp; simpl.
    + rewrite andb_true_r.
      destruct (collapseSpaces c) as [|c0 r]; [reflexivity|].
      simpl in *. apply char_eqb_eq in Hs. subst c0.
      rewrite isSpace_SP in Hn. simpl in Hn.
      apply andb_prop in Hn. destruct Hn as [Hn _].
      apply negb_true_iff in Hn.
      destruct (startsWithSpace r) eqn:Hr; [|reflexivity].
      apply startsWithSpace_head in Hr. congruence.
    + apply andb_false_r.
  - now rewrite Hs.
Qed.

Lemma cleanReduce_settled (l : list Inline) : forall prev,
  length (cleanReduce prev l) = length l ->
  settledAfter prev (cleanReduce prev l) = true
  /\ adjacent doubledSpace (cleanReduce prev l) = false.
Proof.
  induction l as [|u r IH]; intros prev Hlen; [split; reflexivity|].
  destruct (cleanReduce_all_kept _ _ _ Hlen) as [E Hr]. rewrite E.
  destruct (IH _ Hr) as [Hs Ha]. split.
  - simpl. now rewrite cleanUnit_settled.
  - simpl. rewrite Ha, orb_false_r.
    destruct (cleanReduce (Some (cleanUnit prev u)) r) as [|y m];
      [reflexivity|].
    simpl in Hs. apply negb_true_iff in Hs. exact Hs.
Qed.

(** ** The Inline Cleaner *)

(** C4. In a cleaned sequence every text unit has content that is not
    empty and holds no two whitespace characters in a row. *)
Theorem cleanInlines_text_content (l : list Inline) (c : jsstring)
        (s : list jsstring) :
  In (Text c s) (cleanInlines l) -> c <> [] /\ hasSpaceRun c = false.
Proof.
  intros Hin.
  pose proof (cleanInlines_textOK l) as Hok.
  rewrite Forall_forall in Hok. specialize (Hok _ Hin).
  destruct Hok as [Ht Hn]. split.
  - intros E. rewrite E in Ht. discriminate.
  - now apply spacesNormal_no_run.
Qed.

Lemma cleanInlines_text_content_witness :
  In (Text (str "a b ") [ str "bold" ]) (cleanInlines sample_inlines)
  /\ str "a b " <> [] /\ hasSpaceRun (str "a b ") = false.
Proof.
  assert (H : In (Text (str "a b ") [ str "bold" ])
                 (cleanInlines sample_inlines))
    by (vm_compute; left; reflexivity).
  split; [exact H|].
  exact (cleanInlines_text_content sample_inlines (str "a b ")
                                   [ str "bold" ] H).
Defined.

(** C1, as stated, fails: the unit in the middle is dropped, the unit
    after it kept its leading space because the dropped unit had no
    trailing one, and a second run strips that space. *)
Lemma cleanInlines_not_idempotent :
  cleanInlines spaced_inlines
  = [ Text (str "a ") [ str "bold" ]; Text (str " b") [ str "bold" ] ]
  /\ cleanInlines (cleanInlines spaced_inlines)
     = [ Text (str "a ") [ str "bold" ]; Text (str "b") [ str "bold" ] ]
  /\ cleanInlines (cleanInlines spaced_inlines)
     <> cleanInlines spaced_inlines.
Proof.
  split; [reflexivity|]. split; [reflexivity|].
  vm_compute. discriminate.
Qed.

(** C1, amended. When the first pass of the cleaner drops no unit of a
    sequence, cleaning the cleaned sequence again returns it unchanged. *)
Theorem cleanInlines_idempotent (l : list Inline) :
  length (cleanReduce None l) = length l ->
  cleanInlines (cleanInlines l) = cleanInlines l.
Proof.
  intros Hlen. apply cleanInlines_fixed.
  - apply cleanInlines_textOK.
  - apply trimTrailing_firstOK, trimLeading_firstOK.
  - apply trimTrailing_lastOK.
  - apply trimTrailing_doubled, trimLeading_doubled.
    now apply cleanReduce_settled.
Qed.

Lemma cleanInlines_idempotent_witness :
  length (cleanReduce None sample_inlines) = length sample_inlines
  /\ cleanInlines (cleanInlines sample_inlines) = cleanInlines sample_inlines
  /\ length (cleanInlines sample_inlines) = 4.
Proof.
  split; [reflexivity|]. split; [|reflexivity].
  apply (cleanInlines_idempotent sample_inlines). reflexivity.
Defined.

(** C10. The reducer takes the leading space of a text unit away exactly
    when the unit before is a [br] or a text unit that ends in a space;
    after an [img] the space stays, so a cleaned sequence can hold a
    text unit that begins with a space right after an [img]. *)
Theorem leading_space_after_img :
  (forall prev c s,
      startsWithSpace (collapseSpaces c) = true ->
      cleanUnit prev (Text c s) = Text (substr1 (collapseSpaces c)) s
      <-> (prev = Some Br
           \/ exists pc ps, prev = Some (Text pc ps)
                            /\ endsWithSpace pc = true))
  /\ (forall prev src c s rest,
         truthy (collapseSpaces c) = true ->
         cleanReduce prev (Img src :: Text c s :: rest)
         = Img src :: Text (collapseSpaces c) s
               :: cleanReduce (Some (Text (collapseSpaces c) s)) rest)
  /\ cleanInlines [ Img (Some (str "x.png")); Text (str "  a") [] ]
     = [ Img (Some (str "x.png")); Text (str " a") [] ].
Proof.
  split; [|split].
  - intros prev c s Hs. simpl. rewrite Hs. simpl. split.
    + destruct (hasTrailingSpace prev) eqn:Hp.
      * intros _. destruct prev as [[pc ps| |src]|]; simpl in Hp;
          try discriminate; [right; eauto | left; reflexivity].
      * intros E. exfalso. injection E as E.
        apply (f_equal (@length _)) in E.
        destruct (collapseSpaces c); [discriminate|]. simpl in E. lia.
    + intros [->|(pc & ps & -> & He)]; simpl; [|rewrite He]; reflexivity.
  - intros prev src c s rest Ht. simpl. rewrite andb_false_r.
    simpl. rewrite Ht. reflexivity.
  - reflexivity.
Qed.

Lemma leading_space_after_img_witness :
  startsWithSpace (collapseSpaces (str "  a")) = true
  /\ truthy (collapseSpaces (str "  a")) = true
  /\ cleanUnit (Some (Img None)) (Text (str "  a") [])
     <> Text (substr1 (collapseSpaces (str "  a"))) []
  /\ cleanReduce None [ Img None; Text (str "  a") [] ]
     = [ Img None; Text (str " a") [] ].
Proof.
  destruct leading_space_after_img as [Honly [Himg _]].
  split; [reflexivity|]. split; [reflexivity|]. split.
  - intros E.
    apply (Honly (Some (Img None)) (str "  a") [] eq_refl) in E.
    destruct E as [E|(pc & ps & E & _)]; discriminate.
  - exact (Himg None None (str "  a") [] [] eq_refl).
Defined.

(** ** Induction on the DOM *)

Section NodeInduction.

Variable P : Node -> Prop.
Hypothesis P_element : forall tag attrs children,
    Forall P children -> P (Element tag attrs children).
Hypothesis P_text : forall text, P (TextNode text).
Hypothesis P_other : forall k, P (OtherNode k).

Lemma Node_forall_ind : forall n, P n.
Proof.
  fix IH 1. intros [tag attrs children|text|k].
  - apply P_element. induction children as [|c r IHr]; constructor.
    + apply IH.
    + exact IHr.
  - apply P_text.
  - apply P_other.
Qed.

End NodeInduction.

(** ** Style sets *)

Lemma activeStylesOf_flags (anc : list jsstring) :
  activeStylesOf anc
  = stylesOfFlags (closest anc (map str [ "b"; "strong" ]%string))
                  (closest anc (map str [ "i"; "em" ]%string))
                  (closest anc [ str "code" ]).
Proof.
  unfold activeStylesOf, markdown_inline_tags, stylesOfFlags.
  cbn [filter fst snd].
  destruct (closest anc (map str ["b"; "strong"]%string));
    destruct (closest anc (map str ["i"; "em"]%string));
    destruct (closest anc [str "code"]); reflexivity.
Qed.

(** On the arrays the extractor computes, [_.isEqual] decides equality of
    the style sets. *)
Lemma sameStyleSet_isEqual (anc anc' : list jsstring) :
  sameStyleSet (activeStylesOf anc') (activeStylesOf anc)
  = isEqual (activeStylesOf anc') (activeStylesOf anc).
Proof.
  rewrite !activeStylesOf_flags.
  destruct (closest anc' (map str ["b"; "strong"]%string));
    destruct (closest anc' (map str ["i"; "em"]%string));
    destruct (closest anc' [str "code"]);
    destruct (closest anc (map str ["b"; "strong"]%string));
    destruct (closest anc (map str ["i"; "em"]%string));
    destruct (closest anc [str "code"]); reflexivity.
Qed.

Lemma last_snoc {A : Type} (l : list A) (x : A) : last (l ++ [x]) = Some x.
Proof.
  induction l as [|z r IH]; simpl; [reflexivity|].
  rewrite IH. now destruct (r ++ [x]) eqn:E; [destruct r|].
Qed.

Lemma last_decompose {A : Type} (l : list A) (x : A) :
  last l = Some x -> l = removelast l ++ [x].
Proof.
  induction l as [|z r IH]; [discriminate|].
  destruct r as [|y r'].
  - simpl. now intros [= ->].
  - intros H. change (last (z :: y :: r')) with (last (y :: r')) in H.
    change (removelast (z :: y :: r')) with (z :: removelast (y :: r')).
    simpl app. f_equal. now apply IH.
Qed.

(** ** The Inline Extractor *)

Section Extractor.

Variable normalizeXML : jsstring -> jsstring.

Lemma Extracted_nil : Extracted [].
Proof. split; [constructor | reflexivity]. Qed.

Lemma Extracted_push_other (l : list Inline) (u : Inline) :
  isText u = false -> Extracted l -> Extracted (l ++ [u]).
Proof.
  intros Hu [Hall Hadj]. split.
  - apply Forall_app. split; [exact Hall|].
    constructor; [|constructor]. now destruct u.
  - rewrite adjacent_snoc, Hadj. simpl.
    destruct (last l) as [x|]; [|reflexivity].
    destruct x; destruct u; try reflexivity; discriminate.
Qed.

Lemma Extracted_text (anc : list jsstring) (text : jsstring)
      (l : list Inline) :
  Extracted l -> Extracted (extractInlines normalizeXML anc (TextNode text) l).
Proof.
  intros [Hall Hadj]. simpl.
  destruct (last l) as [x|] eqn:Hlast.
  - destruct x as [c s| |src].
    + pose proof (last_decompose _ _ Hlast) as El.
      assert (Hs : exists anc', s = activeStylesOf anc').
      { rewrite El in Hall. apply Forall_app in Hall.
        destruct Hall as [_ Hx]. now inversion Hx. }
      destruct Hs as [anc' ->].
      destruct (isEqual (activeStylesOf anc') (activeStylesOf anc)) eqn:Heq.
      * rewrite El in Hall, Hadj. apply Forall_app in Hall.
        destruct Hall as [Hall _]. split.
        -- apply Forall_app. split; [exact Hall|].
           constructor; [|constructor]. now exists anc'.
        -- rewrite adjacent_snoc in *. exact Hadj.
      * split.
        -- apply Forall_app. split; [exact Hall|].
           constructor; [|constructor]. now exists anc.
        -- rewrite adjacent_snoc, Hadj, Hlast. simpl.
           now rewrite sameStyleSet_isEqual.
    + split.
      * apply Forall_app. split; [exact Hall|].
        constructor; [|constructor]. now exists anc.
      * now rewrite adjacent_snoc, Hadj, Hlast.
    + split.
      * apply Forall_app. split; [exact Hall|].
        constructor; [|constructor]. now exists anc.
      * now rewrite adjacent_snoc, Hadj, Hlast.
  - split.
    + apply Forall_app. split; [exact Hall|].
      constructor; [|constructor]. now exists anc.
    + now rewrite adjacent_snoc, Hadj, Hlast.
Qed.

Lemma extractInlines_Extracted (n : Node) : forall anc l,
  Extracted l -> Extracted (extractInlines normalizeXML anc n l).
Proof.
  induction n as [tag attrs children IH|text|k] using Node_forall_ind;
    intros anc l Hl.
  - simpl. destruct (eqb tag (str "br")).
    { now apply Extracted_push_other. }
    destruct (eqb tag (str "img")).
    { now apply Extracted_push_other. }
    revert l Hl. induction IH as [|c r Hc _ IHr]; intros l Hl; simpl.
    + exact Hl.
    + apply IHr. now apply Hc.
  - now apply Extracted_text.
  - exact Hl.
Qed.

Lemma extractAll_Extracted (ns : list NodeRef) :
  Extracted (extractAll normalizeXML ns).
Proof.
  unfold extractAll. generalize Extracted_nil.
  generalize (@nil Inline) as l.
  induction ns as [|n r IH]; intros l Hl; simpl; [exact Hl|].
  apply IH. now apply extractInlines_Extracted.
Qed.

End Extractor.

(** ** Exceptions in parse *)

Lemma mapM_In {A B : Type} (f : A -> option B) (l : list A) :
  forall ys y, mapM f l = Some ys -> In y ys ->
               exists x, In x l /\ f x = Some y.
Proof.
  induction l as [|x r IH]; intros ys y; simpl.
  - intros [= <-] [].
  - destruct (f x) as [z|] eqn:Hx; [|discriminate].
    destruct (mapM f r) as [zs|]; [|discriminate].
    intros [= <-] [<-|Hy]; [eauto|].
    destruct (IH _ _ eq_refl Hy) as (x' & Hin & Hf). eauto.
Qed.

Lemma mapM_total {A B : Type} (f : A -> option B) (l : list A) :
  (forall x, In x l -> exists y, f x = Some y) ->
  exists ys, mapM f l = Some ys.
Proof.
  induction l as [|x r IH]; intros H; simpl; [eauto|].
  destruct (H x (or_introl eq_refl)) as [y ->].
  destruct IH as [ys ->]; [|eauto].
  intros z Hz. apply H. now right.
Qed.

Lemma filterM_In {A : Type} (f : A -> option bool) (l : list A) :
  forall ys y, filterM f l = Some ys -> In y ys -> In y l.
Proof.
  induction l as [|x r IH]; intros ys y; simpl.
  - intros [= <-] [].
  - destruct (f x) as [keep|]; [|discriminate].
    destruct (filterM f r) as [zs|]; [|discriminate].
    intros [= <-] Hy. destruct keep; [destruct Hy as [<-|Hy]|]; eauto.
Qed.

Lemma filterM_kept {A : Type} (f : A -> option bool) (l : list A) :
  forall ys y, filterM f l = Some ys -> In y ys -> f y = Some true.
Proof.
  induction l as [|x r IH]; intros ys y; simpl.
  - intros [= <-] [].
  - destruct (f x) as [keep|] eqn:Hx; [|discriminate].
    destruct (filterM f r) as [zs|]; [|discriminate].
    intros [= <-] Hy. destruct keep; [destruct Hy as [<-|Hy]|]; eauto.
Qed.

Lemma filterM_total {A : Type} (f : A -> option bool) (l : list A) :
  (forall x, In x l -> exists k, f x = Some k) ->
  exists ys, filterM f l = Some ys.
Proof.
  induction l as [|x r IH]; intros H; simpl; [eauto|].
  destruct (H x (or_introl eq_refl)) as [k ->].
  destruct IH as [ys ->]; [|eauto].
  intros z Hz. apply H. now right.
Qed.

Lemma compactBlocks_In (bs : list RawBlock) (b : Block) :
  In b (compactBlocks bs) ->
  content b = None
  /\ (contains markdown_empty_blocks (type b) = false -> nodes b <> None).
Proof.
  unfold compactBlocks. rewrite in_flat_map. intros (raw & _ & Hb).
  destruct (contains markdown_empty_blocks (rawType raw)
            || existsb meaningful (rawNodes raw)); [|destruct Hb].
  destruct Hb as [<-|[]]. simpl. split; [reflexivity|].
  intros ->. discriminate.
Qed.

Section ParseFacts.

Variable normalizeXML : jsstring -> jsstring.

Lemma addContent_content (b b' : Block) :
  content b = None -> addContent normalizeXML b = Some b' ->
  type b' = type b
  /\ (if contains markdown_empty_blocks (type b) then content b' = None
      else exists ns, content b'
                      = Some (cleanInlines (extractAll normalizeXML ns))).
Proof.
  unfold addContent. intros Hc.
  destruct (contains markdown_empty_blocks (type b)).
  - intros [= <-]. tauto.
  - destruct (nodes b) as [ns|]; [|discriminate].
    intros [= <-]. simpl. eauto.
Qed.

(** The two reads of [parse] are defined. *)
Lemma parseFrom_total (anc : list jsstring) (body : Node) :
  exists bs, parseFrom normalizeXML anc body = Some bs.
Proof.
  unfold parseFrom.
  destruct (mapM_total (addContent normalizeXML)
                       (compactBlocks (extractBlocks anc body)))
    as [bs1 E1].
  { intros b Hb. apply compactBlocks_In in Hb. destruct Hb as [_ Hn].
    unfold addContent.
    destruct (contains markdown_empty_blocks (type b)); [eauto|].
    destruct (nodes b); [eauto|]. now destruct Hn. }
  rewrite E1.
  destruct (filterM_total hasContent bs1) as [bs2 E2].
  { intros b2 Hb2.
    destruct (mapM_In _ _ _ _ E1 Hb2) as (b & Hb & Hadd).
    apply compactBlocks_In in Hb. destruct Hb as [Hc _].
    destruct (addContent_content _ _ Hc Hadd) as [Ht Hcontent].
    unfold hasContent. rewrite Ht.
    destruct (contains markdown_empty_blocks (type b)); [eauto|].
    destruct Hcontent as [ns ->]. eauto. }
  rewrite E2. eauto.
Qed.

(** The content of a block of [parse] is the cleaned extraction of the
    nodes of a block of the compaction, and only an empty block ([hr]) has
    none. *)
Lemma parseFrom_content (anc : list jsstring) (body : Node)
      (bs : list Block) (b : Block) :
  parseFrom normalizeXML anc body = Some bs -> In b bs ->
  nodes b = None
  /\ if contains markdown_empty_blocks (type b) then content b = None
     else exists ns,
         In (mkBlock (type b) (Some ns) None)
            (compactBlocks (extractBlocks anc body))
         /\ content b = Some (cleanInlines (extractAll normalizeXML ns))
         /\ cleanInlines (extractAll normalizeXML ns) <> [].
Proof.
  unfold parseFrom.
  destruct (mapM _ _) as [bs1|] eqn:E1; [|discriminate].
  destruct (filterM _ _) as [bs2|] eqn:E2; [|discriminate].
  intros [= <-] Hb. apply in_map_iff in Hb.
  destruct Hb as (b2 & <- & Hb2).
  split; [reflexivity|].
  pose proof (filterM_kept _ _ _ _ E2 Hb2) as Hkeep.
  apply (filterM_In _ _ _ _ E2) in Hb2.
  destruct (mapM_In _ _ _ _ E1 Hb2) as (b0 & Hb0 & Hadd).
  pose proof Hb0 as Hin.
  apply compactBlocks_In in Hb0. destruct Hb0 as [Hc _].
  unfold addContent in Hadd. unfold hasContent in Hkeep.
  unfold deleteNodes. cbn [type content].
  destruct (contains markdown_empty_blocks (type b0)) eqn:Hhr.
  - injection Hadd as <-. now rewrite Hhr.
  - destruct (nodes b0) as [ns|] eqn:Hns; [|discriminate].
    injection Hadd as <-. cbn [type content] in *. rewrite Hhr in *.
    exists ns. split; [|split; [reflexivity|]].
    + destruct b0 as [t n c0]. cbn [type content nodes] in *. now subst.
    + injection Hkeep as Hkeep. intros E. rewrite E in Hkeep. discriminate.
Qed.

End ParseFacts.

(** ** Styles of neighbours after cleaning *)

Lemma sameStyles_cleanUnit (p q : option Inline) (x y : Inline) :
  sameStyles (cleanUnit p x) (cleanUnit q y) = sameStyles x y.
Proof. destruct x, y; reflexivity. Qed.

Lemma cleanReduce_sameStyles (l : list Inline) : forall prev,
  length (cleanReduce prev l) = length l ->
  adjacent sameStyles (cleanReduce prev l) = adjacent sameStyles l.
Proof.
  induction l as [|u r IH]; intros prev Hlen; [reflexivity|].
  destruct (cleanReduce_all_kept _ _ _ Hlen) as [E Hr]. rewrite E.
  change (adjacent sameStyles (cleanUnit prev u :: ?m))
    with (match m with y :: _ => sameStyles (cleanUnit prev u) y
                  | [] => false end || adjacent sameStyles m).
  rewrite (IH _ Hr). destruct r as [|y r']; [reflexivity|].
  destruct (cleanReduce_all_kept _ _ _ Hr) as [E' _]. rewrite E'.
  now rewrite sameStyles_cleanUnit.
Qed.

Lemma cleanInlines_sameStyles (l : list Inline) :
  length (cleanReduce None l) = length l ->
  adjacent sameStyles l = false ->
  adjacent sameStyles (cleanInlines l) = false.
Proof.
  intros Hlen Hadj. unfold cleanInlines.
  rewrite trimTrailing_units, adjacent_rev.
  apply adjacent_trimUnits; [reflexivity|].
  rewrite <- adjacent_rev, rev_involutive, trimLeading_units.
  apply adjacent_trimUnits; [reflexivity|].
  now rewrite cleanReduce_sameStyles.
Qed.

(** ** Running the examples *)

Lemma plainNormalize_plain : NormalizesPlain plainNormalize.
Proof. intros s _. reflexivity. Qed.

Ltac normalize_plain H := repeat (rewrite H by reflexivity).

(** Runs [parse] on a document of the examples: the blocks first, then the
    text under the normaliser, then the cleaning. *)
Ltac run_parse H :=
  unfold html2md, parse, parseFrom; cbv; normalize_plain H; reflexivity.

(** ** Neighbouring text units *)

(** C2, as stated, fails: in [<p><b>a </b> <b>b</b></p>] the cleaner drops
    the space between the two bold runs, which are not merged afterwards. *)
Lemma parse_adjacent_same_style :
  (forall normalizeXML, NormalizesPlain normalizeXML ->
     parse normalizeXML doc_spaced_bold
     = Some [ mkBlock (str "p") None
                      (Some [ Text (str "a ") [ str "bold" ];
                              Text (str "b") [ str "bold" ] ]) ])
  /\ adjacent sameStyles [ Text (str "a ") [ str "bold" ];
                           Text (str "b") [ str "bold" ] ] = true.
Proof.
  split; [|reflexivity].
  intros norm Hn. run_parse Hn.
Qed.

(** C2, amended. The content of a block of [parse] is the cleaning of
    the sequence extracted from the nodes of the block, in which no two
    neighbouring text units have the same style set; the cleaned sequence
    has the property as well when the first pass of the cleaner drops no
    unit. *)
Theorem parse_adjacent_styles (normalizeXML : jsstring -> jsstring)
        (body : Node) (bs : list Block) (b : Block) (c : list Inline) :
  parse normalizeXML body = Some bs -> In b bs -> content b = Some c ->
  exists ns,
    In (mkBlock (type b) (Some ns) None)
       (compactBlocks (extractBlocks [ str "html" ] body))
    /\ c = cleanInlines (extractAll normalizeXML ns)
    /\ adjacent sameStyles (extractAll normalizeXML ns) = false
    /\ (length (cleanReduce None (extractAll normalizeXML ns))
        = length (extractAll normalizeXML ns) ->
        adjacent sameStyles c = false).
Proof.
  intros Hp Hb Hc.
  destruct (parseFrom_content _ _ _ _ _ Hp Hb) as [_ H].
  destruct (contains markdown_empty_blocks (type b)); [congruence|].
  destruct H as (ns & Hin & Hns & _). exists ns.
  assert (E : c = cleanInlines (extractAll normalizeXML ns)) by congruence.
  destruct (extractAll_Extracted normalizeXML ns) as [_ Hadj].
  split; [exact Hin|]. split; [exact E|]. split; [exact Hadj|].
  intros Hlen. rewrite E. now apply cleanInlines_sameStyles.
Qed.

Lemma parse_adjacent_styles_witness :
  exists b c,
    parse plainNormalize doc_two_bold = Some [ b ]
    /\ content b = Some c
    /\ c = [ Text (str "ab") [ str "bold" ] ]
    /\ exists ns,
        In (mkBlock (type b) (Some ns) None)
           (compactBlocks (extractBlocks [ str "html" ] doc_two_bold))
        /\ c = cleanInlines (extractAll plainNormalize ns)
        /\ adjacent sameStyles (extractAll plainNormalize ns) = false
        /\ (length (cleanReduce None (extractAll plainNormalize ns))
            = length (extractAll plainNormalize ns) ->
            adjacent sameStyles c = false).
Proof.
  eexists. eexists. split; [reflexivity|]. split; [reflexivity|].
  split; [reflexivity|].
  eapply (parse_adjacent_styles plainNormalize doc_two_bold);
    [reflexivity | left; reflexivity | reflexivity].
Defined.

(** ** Merging text into the unit before *)

(** C3. A text node whose style set is that of the text unit before it is
    concatenated to that unit, and [<b>a</b><b>b</b>] in one block gives
    the single unit ["ab"] in bold. *)
Theorem same_style_text_is_merged (normalizeXML : jsstring -> jsstring) :
  (forall anc anc' text inlines c,
      sameStyleSet (activeStylesOf anc') (activeStylesOf anc) = true ->
      extractInlines normalizeXML anc (TextNode text)
                     (inlines ++ [ Text c (activeStylesOf anc') ])
      = inlines ++ [ Text (c ++ normalizeXML text) (activeStylesOf anc') ])
  /\ (NormalizesPlain normalizeXML ->
      extractAll normalizeXML
                 [ mkRef [ str "p"; str "body"; str "html" ]
                         (elem "b" [ txt "a" ]);
                   mkRef [ str "p"; str "body"; str "html" ]
                         (elem "b" [ txt "b" ]) ]
      = [ Text (str "ab") [ str "bold" ] ]
      /\ parse normalizeXML doc_two_bold
         = Some [ mkBlock (str "p") None
                          (Some [ Text (str "ab") [ str "bold" ] ]) ]).
Proof.
  split.
  - intros anc anc' text inlines c Hs.
    rewrite sameStyleSet_isEqual in Hs.
    simpl. rewrite last_snoc, Hs, removelast_last. reflexivity.
  - intros Hn.
    assert (E : extractAll normalizeXML
                  [ mkRef [ str "p"; str "body"; str "html" ]
                          (elem "b" [ txt "a" ]);
                    mkRef [ str "p"; str "body"; str "html" ]
                          (elem "b" [ txt "b" ]) ]
                = [ Text (normalizeXML (str "a") ++ normalizeXML (str "b"))
                         [ str "bold" ] ]) by reflexivity.
    rewrite E. normalize_plain Hn. split; [reflexivity|]. run_parse Hn.
Qed.

Lemma same_style_text_is_merged_witness :
  sameStyleSet (activeStylesOf [ str "strong"; str "p" ])
               (activeStylesOf [ str "b"; str "p" ]) = true
  /\ extractInlines plainNormalize [ str "b"; str "p" ] (txt "b")
                    [ Br; Text (str "a") (activeStylesOf [ str "strong";
                                                          str "p" ]) ]
     = [ Br; Text (str "ab") [ str "bold" ] ]
  /\ parse plainNormalize doc_two_bold
     = Some [ mkBlock (str "p") None
                      (Some [ Text (str "ab") [ str "bold" ] ]) ].
Proof.
  destruct (same_style_text_is_merged plainNormalize) as [Hmerge Hdoc].
  split; [reflexivity|]. split.
  - exact (Hmerge [ str "b"; str "p" ] [ str "strong"; str "p" ] (str "b")
                  [ Br ] (str "a") eq_refl).
  - exact (proj2 (Hdoc plainNormalize_plain)).
Defined.

(** ** The Block Extractor *)

Lemma pushNode_length (i : nat) (el : NodeRef) (bs : list RawBlock) :
  length (pushNode i el bs) = length bs.
Proof.
  revert i. induction bs as [|b r IH]; intros [|j]; simpl; auto.
Qed.

Lemma extract_element (anc : list jsstring) (tag : jsstring)
      (attrs : list (jsstring * jsstring)) (children : list Node)
      (st : ExtractState) :
  extract anc (Element tag attrs children) st
  = if negb (contains block_elements tag)
    then addInline (mkRef anc (Element tag attrs children)) st
    else
      let bs := if currentIsEmptyLast st then removelast (blocks st)
                else blocks st in
      let new := mkRaw (if contains markdown_block_tags tag then tag
                        else str "p") [] in
      mkState
        (blocks (fold_left (fun s child => extract (tag :: anc) child s)
                           children
                           (mkState (bs ++ [ new ]) (Some (length bs)))))
        None.
Proof. reflexivity. Qed.

(** ** The blocks in front of the open one

    [extract] reads the blocks it is given through [currentBlock] and
    [_.last(blocks)] only, so the blocks in front of the open one take no
    part in what it builds. *)

Lemma pushNode_shift (pre : list RawBlock) (i : nat) (el : NodeRef)
      (bs : list RawBlock) :
  pushNode (length pre + i) el (pre ++ bs) = pre ++ pushNode i el bs.
Proof.
  induction pre as [|b pre IH]; [reflexivity|].
  cbn [length Nat.add app pushNode]. now rewrite IH.
Qed.

Lemma addInline_shift (pre : list RawBlock) (el : NodeRef)
      (st : ExtractState) :
  addInline el (shiftState pre st) = shiftState pre (addInline el st).
Proof.
  unfold addInline, shiftState. destruct (currentBlock st) as [i|]; simpl.
  - now rewrite pushNode_shift.
  - now rewrite app_assoc.
Qed.

Lemma currentIsEmptyLast_shift (pre : list RawBlock) (st : ExtractState) :
  currentIsEmptyLast (shiftState pre st) = currentIsEmptyLast st.
Proof.
  unfold currentIsEmptyLast, shiftState.
  destruct (currentBlock st) as [i|];
    cbn [blocks currentBlock option_map]; [|reflexivity].
  rewrite nth_error_app2 by lia.
  replace (length pre + i - length pre) with i by lia.
  destruct (nth_error (blocks st) i) as [b|]; [|reflexivity].
  f_equal. rewrite length_app.
  destruct (Nat.eqb_spec (S i) (length (blocks st))) as [E|E];
    destruct (Nat.eqb_spec (S (length pre + i))
                           (length pre + length (blocks st))) as [F|F];
    trivial; lia.
Qed.

Lemma currentIsEmptyLast_nonempty (st : ExtractState) :
  currentIsEmptyLast st = true -> blocks st <> [].
Proof.
  unfold currentIsEmptyLast. destruct (currentBlock st) as [i|]; [|discriminate].
  destruct (blocks st); [|discriminate]. now destruct i.
Qed.

Lemma extract_shift (n : Node) : forall anc pre st,
  extract anc n (shiftState pre st) = shiftState pre (extract anc n st).
Proof.
  induction n as [tag attrs children IH|text|kind] using Node_forall_ind;
    intros anc pre st; try (now apply addInline_shift).
  rewrite !extract_element.
  destruct (contains block_elements tag); cbn [negb];
    [|now apply addInline_shift].
  cbv zeta. rewrite currentIsEmptyLast_shift.
  set (new := mkRaw (if contains markdown_block_tags tag then tag
                     else str "p") []).
  assert (Hfold : forall st0,
             fold_left (fun s child => extract (tag :: anc) child s)
                       children (shiftState pre st0)
             = shiftState pre
                 (fold_left (fun s child => extract (tag :: anc) child s)
                            children st0)).
  { induction IH as [|c r Hc _ IHr]; intros st0; simpl; [reflexivity|].
    now rewrite Hc, IHr. }
  assert (Hbs : (if currentIsEmptyLast st
                 then removelast (blocks (shiftState pre st))
                 else blocks (shiftState pre st))
                = pre ++ (if currentIsEmptyLast st then removelast (blocks st)
                          else blocks st)).
  { destruct (currentIsEmptyLast st) eqn:E; [|reflexivity].
    cbn [shiftState blocks]. apply removelast_app.
    now apply currentIsEmptyLast_nonempty. }
  rewrite Hbs.
  set (bs := if currentIsEmptyLast st then removelast (blocks st)
             else blocks st).
  replace (mkState ((pre ++ bs) ++ [ new ]) (Some (length (pre ++ bs))))
    with (shiftState pre (mkState (bs ++ [ new ]) (Some (length bs)))).
  - rewrite Hfold. reflexivity.
  - unfold shiftState. cbn [blocks currentBlock option_map].
    now rewrite app_assoc, length_app.
Qed.

Lemma extract_children_shift (children : list Node) : forall anc pre st,
  fold_left (fun s child => extract anc child s) children (shiftState pre st)
  = shiftState pre (fold_left (fun s child => extract anc child s)
                              children st).
Proof.
  induction children as [|c r IH]; intros anc pre st; simpl; [reflexivity|].
  now rewrite extract_shift, IH.
Qed.

(** A block element leaves the blocks it finds as they are, the popped
    one apart, and puts behind them what it builds on its own. *)
Lemma extract_block_element (anc : list jsstring) (tag : jsstring)
      (attrs : list (jsstring * jsstring)) (children : list Node)
      (st : ExtractState) :
  contains block_elements tag = true ->
  blocks (extract anc (Element tag attrs children) st)
  = (if currentIsEmptyLast st then removelast (blocks st) else blocks st)
      ++ extractBlocks anc (Element tag attrs children).
Proof.
  intros Htag. unfold extractBlocks.
  rewrite !extract_element, Htag. cbn [negb]. cbv zeta.
  change (currentIsEmptyLast (mkState [] None)) with false.
  cbv iota. cbn [blocks app length].
  set (bs := if currentIsEmptyLast st then removelast (blocks st)
             else blocks st).
  set (new := mkRaw (if contains markdown_block_tags tag then tag
                     else str "p") []).
  replace (mkState (bs ++ [ new ]) (Some (length bs)))
    with (shiftState bs (mkState [ new ] (Some 0))).
  - now rewrite extract_children_shift.
  - unfold shiftState. cbn [blocks currentBlock option_map].
    now rewrite Nat.add_0_r.
Qed.

(** C5. When a block element is met while the open block is empty and is
    not an [hr], that block leaves the sequence if it is the block pushed
    last: what is left is the blocks in front of it, followed by exactly
    the blocks the element builds on its own. An empty open block
    elsewhere in the sequence stays where it is, the blocks of the element
    come behind the whole sequence, and only the compaction drops the
    empty block. *)
Theorem empty_open_block_removed_only_if_last
        (anc : list jsstring) (tag : jsstring)
        (attrs : list (jsstring * jsstring)) (children : list Node)
        (st : ExtractState) (i : nat) (b : RawBlock) :
  contains block_elements tag = true ->
  currentBlock st = Some i ->
  nth_error (blocks st) i = Some b ->
  rawNodes b = [] ->
  contains markdown_empty_blocks (rawType b) = false ->
  (S i = length (blocks st) ->
   blocks (extract anc (Element tag attrs children) st)
   = removelast (blocks st)
       ++ extractBlocks anc (Element tag attrs children))
  /\ (S i <> length (blocks st) ->
      blocks (extract anc (Element tag attrs children) st)
      = blocks st ++ extractBlocks anc (Element tag attrs children)
      /\ nth_error (blocks (extract anc (Element tag attrs children) st)) i
         = Some b)
  /\ compactBlocks [ b ] = [].
Proof.
  intros Htag Hcur Hnth Hnodes Hhr.
  rewrite (extract_block_element anc tag attrs children st Htag).
  unfold currentIsEmptyLast. rewrite Hcur, Hnth. cbv beta iota.
  rewrite Hnodes, Hhr. cbn [negb andb]. split; [|split].
  - intros Hlast. apply Nat.eqb_eq in Hlast. now rewrite Hlast.
  - intros Hlast. apply Nat.eqb_neq in Hlast. rewrite Hlast.
    split; [reflexivity|]. rewrite nth_error_app1; [exact Hnth|].
    apply nth_error_Some. congruence.
  - unfold compactBlocks. cbn [flat_map]. rewrite Hhr, Hnodes. reflexivity.
Qed.

Lemma empty_open_block_removed_only_if_last_witness :
  (blocks (extract [] (elem "div" [ txt "B" ]) state_empty_not_last)
   = blocks state_empty_not_last ++ extractBlocks [] (elem "div" [ txt "B" ])
   /\ blocks (extract [] (elem "div" [ txt "B" ]) state_empty_not_last)
      = [ mkRaw (str "p") [];
          mkRaw (str "h1") [ mkRef [ str "h1" ] (txt "A") ];
          mkRaw (str "p") [ mkRef [ str "div" ] (txt "B") ] ])
  /\ (blocks (extract [] (elem "div" [ txt "B" ]) state_empty_last)
      = removelast (blocks state_empty_last)
          ++ extractBlocks [] (elem "div" [ txt "B" ])
      /\ blocks (extract [] (elem "div" [ txt "B" ]) state_empty_last)
         = [ mkRaw (str "h1") [ mkRef [ str "h1" ] (txt "A") ];
             mkRaw (str "p") [ mkRef [ str "div" ] (txt "B") ] ]).
Proof.
  split; (split; [|reflexivity]).
  - refine (proj1 (proj1 (proj2
      (empty_open_block_removed_only_if_last [] (str "div") []
         [ txt "B" ] state_empty_not_last 0 (mkRaw (str "p") [])
         eq_refl eq_refl eq_refl eq_refl eq_refl)) _)).
    simpl. discriminate.
  - exact (proj1
      (empty_open_block_removed_only_if_last [] (str "div") []
         [ txt "B" ] state_empty_last 1 (mkRaw (str "p") [])
         eq_refl eq_refl eq_refl eq_refl eq_refl) eq_refl).
Defined.

(** ** The Markdown Renderer *)

(** A block whose type has a [case] in the [switch] is its prefix followed
    by its content. *)
Lemma renderBlock_prefix (b : Block) :
  contains rendered_types (type b) = true ->
  renderBlock b = Some (syntax (type b) ++ renderContent (content b)).
Proof. unfold renderBlock. now intros ->. Qed.

Lemma syntax_prefixes :
  map syntax rendered_types
  = map str [ "> "; "  "; ""; "- - -"; "# "; "## "; "### "; "#### ";
              "##### "; "###### " ]%string.
Proof. reflexivity. Qed.

(** C6, where the code departs from it: [parse] returns [li] blocks, the
    table has the list markers under [ul] and [ol], and the [switch] of
    [toMarkdown] has no [case] for [li]: the block renders to nothing. *)
Theorem li_block_is_not_rendered :
  (forall normalizeXML, NormalizesPlain normalizeXML ->
     parse normalizeXML doc_list = Some [ li_block ])
  /\ renderContent (content li_block) = str "x"
  /\ renderBlock li_block = None
  /\ toMarkdown [ li_block ] = []
  /\ lookup (str "li") markdown_syntax = None
  /\ syntax (str "ul") = str "* "
  /\ syntax (str "ol") = str "1. ".
Proof.
  split; [intros norm Hn; run_parse Hn|].
  repeat split; reflexivity.
Qed.

(** ** Images without a source *)

(** C7, as stated, fails: the unit of an [img] without [src] holds [null],
    not the empty string, and it is rendered as [![](null)]. *)
Lemma img_without_src_is_null :
  (forall normalizeXML,
      parse normalizeXML doc_img_no_src
      = Some [ mkBlock (str "p") None (Some [ Img None ]) ])
  /\ Img None <> Img (Some (str ""))
  /\ (forall normalizeXML,
         html2md normalizeXML doc_img_no_src = Some (str "![](null)"))
  /\ str "![](null)" <> str "![]()".
Proof.
  split; [reflexivity|]. split; [discriminate|].
  split; [reflexivity|]. vm_compute. discriminate.
Qed.

(** C7, amended. No conversion raises an exception, and an [img] with no
    [src] attribute gives a unit whose source is [null], the value of the
    attribute lookup, which is rendered as [![](null)]. *)
Theorem img_without_src (normalizeXML : jsstring -> jsstring) :
  (forall body, exists md, html2md normalizeXML body = Some md)
  /\ (forall anc attrs children inlines,
         getAttribute attrs (str "src") = None ->
         extractInlines normalizeXML anc
                        (Element (str "img") attrs children) inlines
         = inlines ++ [ Img None ])
  /\ (forall st,
         rendered (renderInline st (Img None))
         = rendered st ++ str "![](null)").
Proof.
  split; [|split].
  - intros body. unfold html2md, parse.
    destruct (parseFrom_total normalizeXML [ str "html" ] body) as [bs ->].
    simpl. eauto.
  - intros anc attrs children inlines Hsrc.
    change (extractInlines normalizeXML anc
                           (Element (str "img") attrs children) inlines)
      with (inlines ++ [ Img (getAttribute attrs (str "src")) ]).
    now rewrite Hsrc.
  - reflexivity.
Qed.

Lemma img_without_src_witness :
  getAttribute [ (str "alt", str "x") ] (str "src") = None
  /\ extractInlines plainNormalize [ str "p" ]
                    (Element (str "img") [ (str "alt", str "x") ] []) [ Br ]
     = [ Br; Img None ]
  /\ html2md plainNormalize doc_img_no_src = Some (str "![](null)").
Proof.
  destruct (img_without_src plainNormalize) as (_ & Himg & _).
  split; [reflexivity|]. split; [|reflexivity].
  exact (Himg [ str "p" ] [ (str "alt", str "x") ] [] [ Br ] eq_refl).
Defined.

(** ** Horizontal rules and images as blocks *)

(** C8. [<hr>] is converted to [- - -]; its block has no content, the
    compaction deletes the node list of an [hr] block, and the inline pass
    leaves the block as it is. *)
Theorem hr_has_no_content (normalizeXML : jsstring -> jsstring) :
  html2md normalizeXML doc_hr = Some (str "- - -")
  /\ parse normalizeXML doc_hr = Some [ mkBlock (str "hr") None None ]
  /\ compactBlocks (extractBlocks [ str "html" ] doc_hr)
     = [ mkBlock (str "hr") None None ]
  /\ (forall ns, compactBlocks [ mkRaw (str "hr") ns ]
                 = [ mkBlock (str "hr") None None ])
  /\ (forall ns c, addContent normalizeXML (mkBlock (str "hr") ns c)
                   = Some (mkBlock (str "hr") ns c)).
Proof.
  repeat split; reflexivity.
Qed.

Lemma matchesSelector_meaningful (n : NodeRef) :
  matchesSelector (node n) empty_tags = true -> meaningful n = true.
Proof.
  unfold meaningful. destruct (node n); try discriminate.
  intros ->. apply orb_true_r.
Qed.

Lemma querySelector_meaningful (n : NodeRef) (d : Node) :
  querySelector empty_tags (node n) = Some d -> meaningful n = true.
Proof.
  unfold meaningful. destruct (node n); try discriminate.
  intros ->. now rewrite !orb_true_r.
Qed.

(** C9. In [<div><p></p><img src="x.png"></div>] the compaction drops the
    empty block of [<p>] and keeps the block that owns the image, which is
    rendered as a paragraph of its own; a node that matches one of the
    empty tags, or has a descendant that does, keeps its block. *)
Theorem empty_p_dropped_img_kept (normalizeXML : jsstring -> jsstring) :
  extractBlocks [ str "html" ] doc_div_img
  = [ mkRaw (str "p") [];
      mkRaw (str "p") [ mkRef [ str "div"; str "body"; str "html" ] img_x ] ]
  /\ compactBlocks [ mkRaw (str "p") [] ] = []
  /\ compactBlocks (extractBlocks [ str "html" ] doc_div_img)
     = [ mkBlock (str "p")
                 (Some [ mkRef [ str "div"; str "body"; str "html" ] img_x ])
                 None ]
  /\ parse normalizeXML doc_div_img
     = Some [ mkBlock (str "p") None (Some [ Img (Some (str "x.png")) ]) ]
  /\ html2md normalizeXML doc_div_img = Some (str "![](x.png)")
  /\ (forall raw n,
         In n (rawNodes raw) ->
         matchesSelector (node n) empty_tags = true
         \/ (exists d, querySelector empty_tags (node n) = Some d) ->
         exists b, compactBlocks [ raw ] = [ b ] /\ type b = rawType raw)
  /\ empty_tags = map str [ "hr"; "br"; "img"; "video"; "audio" ]%string.
Proof.
  do 5 (split; [reflexivity|]). split; [|reflexivity].
  intros raw n Hin Hn.
  assert (Hm : existsb meaningful (rawNodes raw) = true).
  { apply existsb_exists. exists n. split; [exact Hin|].
    destruct Hn as [Hn|[d Hd]];
      [now apply matchesSelector_meaningful
      | now apply querySelector_meaningful with d]. }
  unfold compactBlocks. cbn [flat_map]. rewrite Hm, orb_true_r.
  eexists. split; reflexivity.
Qed.

Lemma empty_p_dropped_img_kept_witness :
  In (mkRef [] (elem "span" [ elem "em" [ elem "video" [] ] ]))
     [ mkRef [] (txt " ");
       mkRef [] (elem "span" [ elem "em" [ elem "video" [] ] ]) ]
  /\ querySelector empty_tags (elem "span" [ elem "em" [ elem "video" [] ] ])
     = Some (elem "video" [])
  /\ exists b,
      compactBlocks
        [ mkRaw (str "h2")
                [ mkRef [] (txt " ");
                  mkRef [] (elem "span" [ elem "em" [ elem "video" [] ] ]) ] ]
      = [ b ] /\ type b = str "h2".
Proof.
  destruct (empty_p_dropped_img_kept plainNormalize)
    as (_ & _ & _ & _ & _ & Hkeep & _).
  split; [right; left; reflexivity|]. split; [reflexivity|].
  apply (Hkeep (mkRaw (str "h2")
                  [ mkRef [] (txt " ");
                    mkRef [] (elem "span" [ elem "em" [ elem "video" [] ] ]) ])
               (mkRef [] (elem "span" [ elem "em" [ elem "video" [] ] ]))).
  - right. left. reflexivity.
  - right. exists (elem "video" []). reflexivity.
Defined.

(** ** Further properties of the pipeline *)

(** X1. Past the check of the window, neither read of [parse] that
    could raise a TypeError does so, whatever the tree: every block of the
    compaction still has its [nodes] when the inline pass reads them, and
    every block that the final filter asks for the length of its
    [content] has one. The [Error] of a missing window and the limits of
    the engine are not covered. *)
Theorem parse_reads_are_defined (normalizeXML : jsstring -> jsstring)
        (body : Node) :
  exists bs1 bs2,
    mapM (addContent normalizeXML)
         (compactBlocks (extractBlocks [ str "html" ] body)) = Some bs1
    /\ filterM hasContent bs1 = Some bs2
    /\ parse normalizeXML body = Some (map deleteNodes bs2).
Proof.
  unfold parse, parseFrom.
  destruct (mapM_total (addContent normalizeXML)
                       (compactBlocks (extractBlocks [ str "html" ] body)))
    as [bs1 E1].
  { intros b Hb. apply compactBlocks_In in Hb. destruct Hb as [_ Hn].
    unfold addContent.
    destruct (contains markdown_empty_blocks (type b)); [eauto|].
    destruct (nodes b); [eauto|]. now destruct Hn. }
  destruct (filterM_total hasContent bs1) as [bs2 E2].
  { intros b2 Hb2.
    destruct (mapM_In _ _ _ _ E1 Hb2) as (b & Hb & Hadd).
    apply compactBlocks_In in Hb. destruct Hb as [Hc _].
    destruct (addContent_content _ _ _ Hc Hadd) as [Ht Hcontent].
    unfold hasContent. rewrite Ht.
    destruct (contains markdown_empty_blocks (type b)); [eauto|].
    destruct Hcontent as [ns ->]. eauto. }
  exists bs1, bs2. rewrite E1, E2. auto.
Qed.

(** X2. A block that [parse] returns has no [nodes]; an [hr] block has
    no [content], and the content of any other block is not empty. *)
Theorem parse_blocks_have_content (normalizeXML : jsstring -> jsstring)
        (body : Node) (bs : list Block) (b : Block) :
  parse normalizeXML body = Some bs -> In b bs ->
  nodes b = None
  /\ (type b = str "hr" -> content b = None)
  /\ (type b <> str "hr" ->
      exists c, content b = Some c /\ c <> [] /\ Forall textOK c).
Proof.
  intros Hp Hb.
  destruct (parseFrom_content _ _ _ _ _ Hp Hb) as [Hn H].
  split; [exact Hn|].
  unfold markdown_empty_blocks, contains in H. cbn [existsb] in H.
  rewrite orb_false_r in H. split.
  - intros E. rewrite E in H. exact H.
  - intros Hne. destruct (eqb (type b) (str "hr")) eqn:E.
    + exfalso. apply Hne. clear -E.
      revert E. generalize (str "hr"). generalize (type b).
      induction j as [|x a IH]; intros [|y b']; simpl; try discriminate;
        [reflexivity|].
      intros H. apply andb_prop in H. destruct H as [Hx Ha].
      apply char_eqb_eq in Hx. f_equal; [exact Hx | now apply IH].
    + destruct H as (ns & _ & Hc & Hnil). eexists. split; [exact Hc|].
      split; [exact Hnil | apply cleanInlines_textOK].
Qed.

Lemma parse_blocks_have_content_witness :
  exists b c,
    parse plainNormalize doc_div_img = Some [ b ]
    /\ type b = str "p" /\ nodes b = None
    /\ content b = Some c /\ c <> [] /\ Forall textOK c.
Proof.
  assert (Hp : parse plainNormalize doc_div_img
               = Some [ mkBlock (str "p") None
                                (Some [ Img (Some (str "x.png")) ]) ])
    by reflexivity.
  destruct (parse_blocks_have_content plainNormalize doc_div_img _ _ Hp
              (or_introl eq_refl)) as (Hn & _ & Hc).
  destruct Hc as (c & Hc & Hne & Hok); [vm_compute; discriminate|].
  eexists. exists c. repeat split; try eassumption; reflexivity.
Defined.

(** X3. A cleaned sequence does not begin or end with whitespace: its first
    unit, when it is text, starts with a character that is no whitespace,
    and its last unit, when it is text, ends with one. *)
Theorem cleanInlines_trimmed (l : list Inline) :
  firstOK (cleanInlines l) /\ lastOK (cleanInlines l).
Proof.
  split.
  - apply trimTrailing_firstOK, trimLeading_firstOK.
  - apply trimTrailing_lastOK.
Qed.

Lemma addInline_currentIsLast (el : NodeRef) (st : ExtractState) :
  currentIsLast st -> currentIsLast (addInline el st).
Proof.
  intros Hst. unfold addInline, currentIsLast.
  destruct (currentBlock st) as [i|] eqn:E; simpl.
  - intros j [= <-]. rewrite pushNode_length. now apply Hst.
  - discriminate.
Qed.

(** X4. [extractBlocks] starts with no open block, a block is open from
    the moment it is pushed, and every call of [extract] keeps the open
    block the last one: where [extractBlocks] compares the open block with
    [_.last(blocks)], the two are the same. *)
Theorem open_block_is_last :
  currentIsLast (mkState [] None)
  /\ (forall bs new, currentIsLast (mkState (bs ++ [ new ])
                                            (Some (length bs))))
  /\ (forall n anc st,
         currentIsLast st -> currentIsLast (extract anc n st)).
Proof.
  split; [discriminate|]. split.
  - intros bs new i [= <-]. cbn [blocks]. rewrite length_app. simpl. lia.
  - intros n anc st Hst.
    destruct n as [tag attrs children|text|k];
      try (now apply addInline_currentIsLast).
    rewrite extract_element.
    destruct (contains block_elements tag); cbn [negb];
      [|now apply addInline_currentIsLast].
    intros i. discriminate.
Qed.

Lemma open_block_is_last_witness :
  currentIsLast (mkState [ mkRaw (str "p") [] ] (Some 0))
  /\ currentIsLast (extract [] (txt "a")
                            (mkState [ mkRaw (str "p") [] ] (Some 0))).
Proof.
  destruct open_block_is_last as (_ & Hpush & Hstep).
  pose proof (Hpush [] (mkRaw (str "p") [])) as H.
  split; [exact H|].
  exact (Hstep (txt "a") [] _ H).
Defined.

(** X5. The ten types with a [case] in the [switch] of [toMarkdown] are
    rendered as the prefix of the table followed by the content. *)
Theorem cased_blocks_are_prefixed (b : Block) :
  In (type b) rendered_types ->
  renderBlock b = Some (syntax (type b) ++ renderContent (content b))
  /\ In (type b, syntax (type b))
        (combine rendered_types
                 (map str [ "> "; "  "; ""; "- - -"; "# "; "## "; "### ";
                            "#### "; "##### "; "###### " ]%string)).
Proof.
  intros Hin.
  assert (Hc : contains rendered_types (type b) = true).
  { simpl in Hin.
    repeat (destruct Hin as [<-|Hin]; [reflexivity|]). destruct Hin. }
  split; [now apply renderBlock_prefix|].
  simpl in Hin.
  repeat (destruct Hin as [<-|Hin]; [vm_compute; tauto|]). destruct Hin.
Qed.

Lemma cased_blocks_are_prefixed_witness :
  renderBlock (mkBlock (str "h2") None
                       (Some [ Text (str "Hi ") [];
                               Text (str "there") [ str "bold" ];
                               Br; Img (Some (str "x.png")) ]))
  = Some (str "## Hi **there" ++ [SP; SP; NL] ++ str "![](x.png)**").
Proof.
  destruct (cased_blocks_are_prefixed
              (mkBlock (str "h2") None
                       (Some [ Text (str "Hi ") [];
                               Text (str "there") [ str "bold" ];
                               Br; Img (Some (str "x.png")) ])))
    as [Hr _].
  - vm_compute. tauto.
  - rewrite Hr. reflexivity.
Defined.

(** ** When cleaning twice is cleaning once *)

Lemma collapseFrom_length (s : jsstring) : forall inRun,
  length (collapseFrom inRun s) <= length s.
Proof.
  induction s as [|c r IH]; intros inRun; simpl; [lia|].
  destruct (isSpace c); [destruct inRun|]; simpl;
    try (specialize (IH true); lia); specialize (IH false); lia.
Qed.

Lemma dropSpaces_length (s : jsstring) : length (dropSpaces s) <= length s.
Proof.
  induction s as [|c r IH]; simpl; [lia|].
  destruct (isSpace c); simpl; lia.
Qed.

Lemma trimEnd_length (s : jsstring) : length (trimEnd s) <= length s.
Proof.
  unfold trimEnd. rewrite length_rev.
  pose proof (dropSpaces_length (rev s)) as H.
  now rewrite length_rev in H.
Qed.

Lemma contentSize_app (a b : list Inline) :
  contentSize (a ++ b) = contentSize a + contentSize b.
Proof. unfold contentSize. now rewrite map_app, list_sum_app. Qed.

Lemma contentSize_rev (l : list Inline) :
  contentSize (rev l) = contentSize l.
Proof.
  induction l as [|u r IH]; [reflexivity|].
  simpl rev. rewrite contentSize_app, IH.
  unfold contentSize. simpl. lia.
Qed.

Lemma cleanUnit_size (prev : option Inline) (u : Inline) :
  unitSize (cleanUnit prev u) <= unitSize u.
Proof.
  destruct u as [c s| |src]; simpl; try lia.
  pose proof (collapseFrom_length c false) as H. unfold collapseSpaces.
  destruct (_ && _); [|exact H].
  destruct (collapseFrom false c); simpl in *; lia.
Qed.

Lemma cleanReduce_size (l : list Inline) : forall prev,
  contentSize (cleanReduce prev l) <= contentSize l.
Proof.
  induction l as [|u r IH]; intros prev; simpl; [lia|].
  rewrite contentSize_app.
  specialize (IH (Some (cleanUnit prev u))).
  pose proof (cleanUnit_size prev u) as Hu.
  change (contentSize (u :: r)) with (unitSize u + contentSize r).
  destruct (kept (cleanUnit prev u)).
  - change (contentSize [cleanUnit prev u])
      with (unitSize (cleanUnit prev u) + 0). lia.
  - change (contentSize []) with 0. lia.
Qed.

Lemma trimUnits_size (strip : jsstring -> jsstring) (l : list Inline) :
  (forall c, length (strip c) <= length c) ->
  contentSize (trimUnits strip l) <= contentSize l.
Proof.
  intros Hs. induction l as [|u r IH]; simpl; [lia|].
  destruct u as [c s| |src]; try lia.
  change (contentSize (Text c s :: r)) with (length c + contentSize r).
  destruct (truthy (strip c)); [|lia].
  change (contentSize (Text (strip c) s :: r))
    with (length (strip c) + contentSize r).
  specialize (Hs c). lia.
Qed.

Lemma trims_size (l : list Inline) :
  contentSize (trimTrailing (trimLeading l)) <= contentSize l.
Proof.
  rewrite trimTrailing_units, contentSize_rev.
  pose proof (trimUnits_size trimEnd (rev (trimLeading l)) trimEnd_length)
    as H1.
  rewrite contentSize_rev, trimLeading_units in H1.
  pose proof (trimUnits_size trimStart l dropSpaces_length) as H2.
  rewrite trimLeading_units. lia.
Qed.

(** Where a leading space follows a trailing one, the reducer makes the
    sequence shorter. *)
Lemma cleanReduce_shrinks (l : list Inline) : forall prev,
  Forall textOK l ->
  settledAfter prev l = false \/ adjacent doubledSpace l = true ->
  contentSize (cleanReduce prev l) < contentSize l.
Proof.
  induction l as [|u r IH]; intros prev Hok H.
  - destruct H; discriminate.
  - inversion Hok as [|? ? Hu Hr]; subst.
    change (cleanReduce prev (u :: r))
      with ((if kept (cleanUnit prev u) then [cleanUnit prev u] else [])
              ++ cleanReduce (Some (cleanUnit prev u)) r).
    rewrite contentSize_app.
    change (contentSize (u :: r)) with (unitSize u + contentSize r).
    destruct (leadingSpace u && hasTrailingSpace prev) eqn:Hlead.
    + pose proof (cleanReduce_size r (Some (cleanUnit prev u))) as Hle.
      assert (Hlt : unitSize (cleanUnit prev u) < unitSize u).
      { destruct u as [c s| |src]; try discriminate.
        simpl in Hu, Hlead. destruct Hu as [_ Hn].
        simpl. rewrite (collapseSpaces_fixed _ Hn), Hlead.
        destruct c; [discriminate | simpl; lia]. }
      destruct (kept (cleanUnit prev u)).
      * change (contentSize [cleanUnit prev u])
          with (unitSize (cleanUnit prev u) + 0). lia.
      * change (contentSize []) with 0. lia.
    + rewrite (cleanUnit_fixed _ _ Hu Hlead).
      assert (Hk : kept u = true) by (destruct u; simpl in *; tauto).
      rewrite Hk.
      change (contentSize [u]) with (unitSize u + 0).
      assert (Hrest : settledAfter (Some u) r = false
                      \/ adjacent doubledSpace r = true).
      { destruct H as [H|H].
        - simpl in H. rewrite Hlead in H. discriminate.
        - simpl in H. apply orb_prop in H. destruct H as [H|H]; [|tauto].
          left. destruct r as [|y r']; [discriminate|].
          unfold settledAfter. unfold doubledSpace in H. now rewrite H. }
      specialize (IH (Some u) Hr Hrest). lia.
Qed.

(** X7. Cleaning a cleaned sequence again changes it exactly when it holds
    a text unit that begins with a space right after a [br] or a text unit
    that ends in a space. *)
Theorem cleanInlines_idempotent_iff (l : list Inline) :
  cleanInlines (cleanInlines l) = cleanInlines l
  <-> adjacent doubledSpace (cleanInlines l) = false.
Proof.
  split.
  - intros E. destruct (adjacent doubledSpace (cleanInlines l)) eqn:H;
      [exfalso|reflexivity].
    pose proof (cleanReduce_shrinks (cleanInlines l) None
                  (cleanInlines_textOK l) (or_intror H)) as Hlt.
    pose proof (trims_size (cleanReduce None (cleanInlines l))) as Hle.
    apply (f_equal contentSize) in E. unfold cleanInlines at 1 in E. lia.
  - intros H. apply cleanInlines_fixed.
    + apply cleanInlines_textOK.
    + apply trimTrailing_firstOK, trimLeading_firstOK.
    + apply trimTrailing_lastOK.
    + exact H.
Qed.

(** ** The earlier variant of the Block Extractor *)

Lemma legacy_extractBlocks_element (anc : list jsstring) (tag : jsstring)
      (attrs : list (jsstring * jsstring)) (children : list Node)
      (blocks : list RawBlock) :
  Legacy.extractBlocks anc (Element tag attrs children) blocks
  = if negb (contains block_elements tag)
    then Legacy.addInline (mkRef anc (Element tag attrs children)) blocks
    else
      fold_left (fun bs child => Legacy.extractBlocks (tag :: anc) child bs)
                children
                ((if Legacy.lastIsEmpty blocks then removelast blocks else blocks)
                   ++ [ mkRaw (if contains markdown_block_tags tag then tag
                               else str "p") [] ]).
Proof. reflexivity. Qed.

Lemma last_app_nonempty {A : Type} (pre bs : list A) :
  bs <> [] -> last (pre ++ bs) = last bs.
Proof.
  intros Hbs. induction pre as [|x pre IH]; [reflexivity|].
  cbn [app]. destruct (pre ++ bs) as [|y r] eqn:E.
  - now destruct pre, bs.
  - exact IH.
Qed.

Lemma legacy_addInline_frame (pre bs : list RawBlock) (el : NodeRef) :
  bs <> [] ->
  Legacy.addInline el (pre ++ bs) = pre ++ Legacy.addInline el bs
  /\ Legacy.addInline el bs <> [].
Proof.
  intros Hbs. unfold Legacy.addInline.
  rewrite last_app_nonempty by exact Hbs.
  destruct (last bs) as [b|].
  - rewrite removelast_app, app_assoc by exact Hbs.
    split; [reflexivity|]. now destruct (removelast bs).
  - rewrite app_assoc. split; [reflexivity|]. now destruct bs.
Qed.

(** The earlier variant reads the sequence through [_.last(blocks)] only:
    what it does with a sequence that is not empty does not depend on the
    blocks put in front of it. *)
Lemma legacy_extractBlocks_frame (n : Node) : forall anc pre bs,
  bs <> [] ->
  Legacy.extractBlocks anc n (pre ++ bs)
  = pre ++ Legacy.extractBlocks anc n bs
  /\ Legacy.extractBlocks anc n bs <> [].
Proof.
  induction n as [tag attrs children IH|text|kind] using Node_forall_ind;
    intros anc pre bs Hbs; try (now apply legacy_addInline_frame).
  rewrite !legacy_extractBlocks_element.
  destruct (contains block_elements tag); cbn [negb];
    [|now apply legacy_addInline_frame].
  set (new := mkRaw (if contains markdown_block_tags tag then tag
                     else str "p") []).
  assert (Hfold : forall bs0,
             bs0 <> [] ->
             fold_left
               (fun b child => Legacy.extractBlocks (tag :: anc) child b)
               children (pre ++ bs0)
             = pre ++ fold_left
                 (fun b child => Legacy.extractBlocks (tag :: anc) child b)
                 children bs0
             /\ fold_left
                  (fun b child => Legacy.extractBlocks (tag :: anc) child b)
                  children bs0 <> []).
  { induction IH as [|c r Hc _ IHr]; intros bs0 Hb; simpl; [tauto|].
    destruct (Hc (tag :: anc) pre bs0 Hb) as [E Hne].
    rewrite E. now apply IHr. }
  assert (Hlast : Legacy.lastIsEmpty (pre ++ bs) = Legacy.lastIsEmpty bs).
  { unfold Legacy.lastIsEmpty. now rewrite last_app_nonempty. }
  rewrite Hlast.
  replace ((if Legacy.lastIsEmpty bs then removelast (pre ++ bs)
            else pre ++ bs) ++ [ new ])
    with (pre ++ ((if Legacy.lastIsEmpty bs then removelast bs else bs)
                    ++ [ new ])).
  - apply Hfold. now destruct (if Legacy.lastIsEmpty bs then removelast bs
                               else bs).
  - rewrite app_assoc. f_equal.
    destruct (Legacy.lastIsEmpty bs); [|reflexivity].
    symmetry. now apply removelast_app.
Qed.

(** X6. In the earlier variant a block element pops the last block of
    the sequence whenever that block has no node, an [hr] included, and
    nothing else: what is left is the blocks in front of it, followed by
    exactly the blocks the element builds on an empty sequence. *)
Theorem last_empty_block_is_popped (anc : list jsstring) (tag : jsstring)
        (attrs : list (jsstring * jsstring)) (children : list Node)
        (blocks : list RawBlock) :
  contains block_elements tag = true ->
  Legacy.extractBlocks anc (Element tag attrs children) blocks
  = (if Legacy.lastIsEmpty blocks then removelast blocks else blocks)
      ++ Legacy.extractBlocks anc (Element tag attrs children) [].
Proof.
  intros Htag. rewrite !legacy_extractBlocks_element, Htag. cbn [negb].
  change (Legacy.lastIsEmpty []) with false. cbv iota. cbn [app].
  set (bs := if Legacy.lastIsEmpty blocks then removelast blocks else blocks).
  set (new := mkRaw (if contains markdown_block_tags tag then tag
                     else str "p") []).
  assert (H : forall l bs0,
             bs0 <> [] ->
             fold_left
               (fun b child => Legacy.extractBlocks (tag :: anc) child b)
               l (bs ++ bs0)
             = bs ++ fold_left
                 (fun b child => Legacy.extractBlocks (tag :: anc) child b)
                 l bs0).
  { induction l as [|c r IHl]; intros bs0 Hne; simpl; [reflexivity|].
    destruct (legacy_extractBlocks_frame c (tag :: anc) bs bs0 Hne)
      as [E Hne'].
    rewrite E. now apply IHl. }
  apply H. discriminate.
Qed.

Lemma last_empty_block_is_popped_witness :
  Legacy.extractBlocks [] (elem "p" [ txt "x" ])
                [ mkRaw (str "h1") [ mkRef [] (txt "A") ];
                  mkRaw (str "hr") [] ]
  = [ mkRaw (str "h1") [ mkRef [] (txt "A") ];
      mkRaw (str "p") [ mkRef [ str "p" ] (txt "x") ] ]
  /\ Legacy.extractBlocks [] (elem "p" [ txt "x" ])
                   [ mkRaw (str "h1") [ mkRef [] (txt "A") ];
                     mkRaw (str "hr") [] ]
     = [ mkRaw (str "h1") [ mkRef [] (txt "A") ] ]
         ++ Legacy.extractBlocks [] (elem "p" [ txt "x" ]) [].
Proof.
  split; [reflexivity|].
  exact (last_empty_block_is_popped [] (str "p") [] [ txt "x" ]
           [ mkRaw (str "h1") [ mkRef [] (txt "A") ];
             mkRaw (str "hr") [] ] eq_refl).
Defined.

(** ** What the Block Extractor builds *)

(** The tables stay folded in what follows. *)
Arguments contains : simpl never.

Lemma eqb_eq (a b : jsstring) : eqb a b = true <-> a = b.
Proof.
  revert b. induction a as [|x a IH]; intros [|y b]; simpl;
    try (split; [discriminate | discriminate]); [tauto|].
  rewrite andb_true_iff, char_eqb_eq, IH. split.
  - now intros [-> ->].
  - now intros [= -> ->].
Qed.

Lemma extract_inline (anc : list jsstring) (n : Node) (st : ExtractState) :
  isBlockElement n = false -> extract anc n st = addInline (mkRef anc n) st.
Proof.
  destruct n as [tag attrs children|text|k]; try reflexivity.
  cbn [isBlockElement]. intros H. now rewrite extract_element, H.
Qed.

Lemma pushNode_blockOK (i : nat) (el : NodeRef) (bs : list RawBlock) :
  isBlockElement (node el) = false ->
  Forall blockOK bs -> Forall blockOK (pushNode i el bs).
Proof.
  intros Hel Hbs. revert i.
  induction Hbs as [|b r Hb Hr IH]; intros [|j]; simpl; constructor;
    auto.
  destruct Hb as [Ht Hn]. split; [exact Ht|]. simpl.
  apply Forall_app. split; [exact Hn|]. now constructor.
Qed.

Lemma addInline_blockOK (el : NodeRef) (st : ExtractState) :
  isBlockElement (node el) = false ->
  Forall blockOK (blocks st) -> Forall blockOK (blocks (addInline el st)).
Proof.
  intros Hel Hst. unfold addInline.
  destruct (currentBlock st); simpl.
  - now apply pushNode_blockOK.
  - apply Forall_app. split; [exact Hst|]. constructor; [|constructor].
    split; [reflexivity|]. simpl. now constructor.
Qed.

Lemma removelast_Forall {A : Type} (P : A -> Prop) (l : list A) :
  Forall P l -> Forall P (removelast l).
Proof.
  induction 1 as [|x r Hx Hr IH]; [constructor|].
  destruct r as [|y r']; [constructor|].
  change (removelast (x :: y :: r')) with (x :: removelast (y :: r')).
  now constructor.
Qed.

Lemma extract_blockOK (n : Node) : forall anc st,
  Forall blockOK (blocks st) -> Forall blockOK (blocks (extract anc n st)).
Proof.
  induction n as [tag attrs children IH|text|k] using Node_forall_ind;
    intros anc st Hst; try (now apply addInline_blockOK).
  rewrite extract_element.
  destruct (contains block_elements tag) eqn:Htag; cbn [negb].
  - cbv zeta. cbn [blocks].
    assert (H0 : Forall blockOK
                   ((if currentIsEmptyLast st then removelast (blocks st)
                     else blocks st)
                      ++ [ mkRaw (if contains markdown_block_tags tag
                                  then tag else str "p") [] ])).
    { apply Forall_app. split.
      - destruct (currentIsEmptyLast st);
          [now apply removelast_Forall | exact Hst].
      - constructor; [|constructor]. split; [|constructor]. simpl.
        destruct (contains markdown_block_tags tag) eqn:E;
          [exact E | reflexivity]. }
    assert (Hfold : forall st0,
               Forall blockOK (blocks st0) ->
               Forall blockOK
                 (blocks (fold_left
                            (fun s child => extract (tag :: anc) child s)
                            children st0))).
    { induction IH as [|c r Hc _ IHr]; intros st0 Hst0; simpl.
      - exact Hst0.
      - apply IHr. now apply Hc. }
    apply Hfold. exact H0.
  - apply addInline_blockOK; [|exact Hst]. cbn [node isBlockElement].
    exact Htag.
Qed.

(** X8. Every block that [extractBlocks] returns has one of the Markdown
    block types, and owns no block-level element: blocks do not nest. *)
Theorem extractBlocks_blockOK (anc : list jsstring) (n : Node)
        (b : RawBlock) :
  In b (extractBlocks anc n) ->
  In (rawType b) markdown_block_tags
  /\ forall r, In r (rawNodes b) -> isBlockElement (node r) = false.
Proof.
  intros Hin.
  pose proof (extract_blockOK n anc (mkState [] None) (Forall_nil _)) as H.
  rewrite Forall_forall in H. destruct (H b Hin) as [Ht Hn]. split.
  - unfold contains in Ht. apply existsb_exists in Ht.
    destruct Ht as (t & Hin' & E). apply eqb_eq in E. now subst.
  - now apply Forall_forall.
Qed.

Lemma extractBlocks_blockOK_witness :
  extractBlocks [ str "html" ] doc_div_img
  = [ mkRaw (str "p") [];
      mkRaw (str "p") [ mkRef [ str "div"; str "body"; str "html" ] img_x ] ]
  /\ In (str "p") markdown_block_tags
  /\ isBlockElement img_x = false.
Proof.
  split; [reflexivity|].
  destruct (extractBlocks_blockOK [ str "html" ] doc_div_img
              (mkRaw (str "p")
                     [ mkRef [ str "div"; str "body"; str "html" ] img_x ]))
    as [Ht Hn].
  - right. left. reflexivity.
  - split; [exact Ht|].
    apply (Hn (mkRef [ str "div"; str "body"; str "html" ] img_x)).
    left. reflexivity.
Defined.

Lemma pushNode_last (pre : list RawBlock) (b : RawBlock) (el : NodeRef) :
  pushNode (length pre) el (pre ++ [ b ])
  = pre ++ [ mkRaw (rawType b) (rawNodes b ++ [ el ]) ].
Proof. induction pre as [|x r IH]; simpl; [reflexivity | now rewrite IH]. Qed.

(** Inline nodes met while the last block is open all go to that block. *)
Lemma extract_inlines_open (ns : list Node) : forall anc pre b,
  Forall (fun n => isBlockElement n = false) ns ->
  fold_left (fun s child => extract anc child s) ns
            (mkState (pre ++ [ b ]) (Some (length pre)))
  = mkState (pre ++ [ mkRaw (rawType b)
                            (rawNodes b ++ map (mkRef anc) ns) ])
            (Some (length pre)).
Proof.
  induction ns as [|n r IH]; intros anc pre b Hns; simpl.
  - now rewrite app_nil_r; destruct b.
  - inversion Hns as [|? ? Hn Hr]; subst.
    rewrite (extract_inline _ _ _ Hn). unfold addInline. cbn [currentBlock blocks].
    rewrite pushNode_last, (IH _ _ _ Hr). cbn [rawType rawNodes].
    now rewrite <- app_assoc.
Qed.

(** Inline nodes met while no block is open get a paragraph each. *)
Lemma extract_inlines_closed (ns : list Node) : forall anc bs,
  Forall (fun n => isBlockElement n = false) ns ->
  fold_left (fun s child => extract anc child s) ns (mkState bs None)
  = mkState (bs ++ map (paragraphOf anc) ns) None.
Proof.
  induction ns as [|n r IH]; intros anc bs Hns; simpl.
  - now rewrite app_nil_r.
  - inversion Hns as [|? ? Hn Hr]; subst.
    rewrite (extract_inline _ _ _ Hn). unfold addInline. cbn [currentBlock blocks].
    rewrite (IH _ _ Hr), <- app_assoc. reflexivity.
Qed.

(** X9. A block-level element with inline children only opens one block,
    of its own type or a paragraph, which owns all the children in
    document order; the blocks before it stay, the empty open block that
    is last apart. *)
Theorem inline_children_share_block (anc : list jsstring) (tag : jsstring)
        (attrs : list (jsstring * jsstring)) (children : list Node)
        (st : ExtractState) :
  contains block_elements tag = true ->
  Forall (fun n => isBlockElement n = false) children ->
  blocks (extract anc (Element tag attrs children) st)
  = (if currentIsEmptyLast st then removelast (blocks st) else blocks st)
      ++ [ mkRaw (if contains markdown_block_tags tag then tag else str "p")
                 (map (mkRef (tag :: anc)) children) ].
Proof.
  intros Htag Hch. rewrite extract_element, Htag. cbn [negb]. cbv zeta.
  rewrite (extract_inlines_open children (tag :: anc) _ _ Hch).
  reflexivity.
Qed.

Lemma inline_children_share_block_witness :
  extractBlocks [ str "html" ]
                (elem "section" [ txt "a"; elem "b" [ txt "b" ]; OtherNode 8 ])
  = [ mkRaw (str "p")
            (map (mkRef [ str "section"; str "html" ])
                 [ txt "a"; elem "b" [ txt "b" ]; OtherNode 8 ]) ].
Proof.
  apply (inline_children_share_block [ str "html" ] (str "section") []
           [ txt "a"; elem "b" [ txt "b" ]; OtherNode 8 ] (mkState [] None)).
  - reflexivity.
  - repeat constructor.
Defined.

(** X10. Once a block-level child has been read no block is open, and
    [addInline] opens none: every inline sibling after it becomes a
    paragraph block of its own. *)
Theorem inline_siblings_after_block (anc : list jsstring) (tag : jsstring)
        (attrs : list (jsstring * jsstring)) (first : Node)
        (rest : list Node) (st : ExtractState) :
  contains block_elements tag = true ->
  isBlockElement first = true ->
  Forall (fun n => isBlockElement n = false) rest ->
  blocks (extract anc (Element tag attrs (first :: rest)) st)
  = blocks (extract anc (Element tag attrs [ first ]) st)
      ++ map (paragraphOf (tag :: anc)) rest.
Proof.
  intros Htag Hfirst Hrest.
  rewrite !extract_element, Htag. cbn [negb]. cbv zeta. cbn [fold_left blocks].
  destruct first as [t a c|text|k]; try discriminate.
  cbn [isBlockElement] in Hfirst.
  set (st1 := mkState _ _).
  rewrite (extract_element (tag :: anc) t a c st1), Hfirst. cbn [negb].
  cbv zeta.
  rewrite (extract_inlines_closed rest (tag :: anc) _ Hrest).
  reflexivity.
Qed.

Lemma inline_siblings_after_block_witness :
  extractBlocks [ str "html" ]
                (elem "div" [ elem "p" [ txt "a" ]; txt "b";
                              elem "i" [ txt "c" ] ])
  = [ mkRaw (str "p") [ mkRef [ str "p"; str "div"; str "html" ] (txt "a") ];
      paragraphOf [ str "div"; str "html" ] (txt "b");
      paragraphOf [ str "div"; str "html" ] (elem "i" [ txt "c" ]) ].
Proof.
  unfold extractBlocks, elem at 1.
  rewrite (inline_siblings_after_block [ str "html" ] (str "div") []
             (elem "p" [ txt "a" ]) [ txt "b"; elem "i" [ txt "c" ] ]
             (mkState [] None) eq_refl eq_refl);
    [reflexivity | repeat constructor].
Defined.

(** ** What the Inline Extractor keeps *)

Section ExtractorKeeps.

Variable normalizeXML : jsstring -> jsstring.

Lemma textOf_app (a b : list Inline) : textOf (a ++ b) = textOf a ++ textOf b.
Proof. unfold textOf. now rewrite map_app, concat_app. Qed.

Lemma media_app (a b : list Inline) : media (a ++ b) = media a ++ media b.
Proof. apply filter_app. Qed.

Ltac push_unit :=
  rewrite ?textOf_app, ?media_app;
  cbn [textOf media map concat filter isText negb app];
  rewrite ?app_nil_r.

Lemma extractInlines_element (anc : list jsstring) (tag : jsstring)
      (attrs : list (jsstring * jsstring)) (children : list Node)
      (inlines : list Inline) :
  extractInlines normalizeXML anc (Element tag attrs children) inlines
  = if eqb tag (str "br") then inlines ++ [ Br ]
    else if eqb tag (str "img")
    then inlines ++ [ Img (getAttribute attrs (str "src")) ]
    else fold_left (fun m n => extractInlines normalizeXML (tag :: anc) n m)
                   children inlines.
Proof. reflexivity. Qed.

(** A text node adds its text to the sequence: as a unit of its own, or
    at the end of the unit before. *)
Lemma extractInlines_text (anc : list jsstring) (text : jsstring)
      (inlines : list Inline) :
  textOf (extractInlines normalizeXML anc (TextNode text) inlines)
  = textOf inlines ++ normalizeXML text
  /\ media (extractInlines normalizeXML anc (TextNode text) inlines)
     = media inlines.
Proof.
  simpl. destruct (last inlines) as [[c s| |src]|] eqn:Hlast;
    try (now push_unit).
  destruct (isEqual s (activeStylesOf anc)); [|now push_unit].
  pose proof (last_decompose _ _ Hlast) as El.
  remember (removelast inlines) as pre eqn:Epre. rewrite El.
  push_unit. now rewrite app_assoc.
Qed.

Lemma extractInlines_keeps (n : Node) : forall anc inlines,
  textOf (extractInlines normalizeXML anc n inlines)
  = textOf inlines ++ nodeText normalizeXML n
  /\ media (extractInlines normalizeXML anc n inlines)
     = media inlines ++ nodeMedia n.
Proof.
  induction n as [tag attrs children IH|text|k] using Node_forall_ind;
    intros anc inlines.
  - rewrite extractInlines_element. simpl nodeText. simpl nodeMedia.
    destruct (eqb tag (str "br")).
    { now push_unit. }
    destruct (eqb tag (str "img")).
    { now push_unit. }
    simpl orb. cbv iota. revert inlines.
    induction IH as [|c r Hc _ IHr]; intros inlines; simpl.
    + now rewrite !app_nil_r.
    + destruct (IHr (extractInlines normalizeXML (tag :: anc) c inlines))
        as [Ht Hm].
      destruct (Hc (tag :: anc) inlines) as [Ht' Hm'].
      rewrite Ht, Hm, Ht', Hm', <- !app_assoc. split; reflexivity.
  - destruct (extractInlines_text anc text inlines) as [Ht Hm].
    rewrite Ht, Hm. simpl. now rewrite app_nil_r.
  - simpl. now rewrite !app_nil_r.
Qed.

(** X11. The inline extraction loses no text: the content of the text
    units, one after the other, is the normalised text of the text nodes
    in document order, merged or not; what lies below a [br] or an [img]
    and nodes that are neither elements nor text give nothing. *)
Theorem extractAll_text (ns : list NodeRef) :
  textOf (extractAll normalizeXML ns)
  = concat (map (fun r => nodeText normalizeXML (node r)) ns).
Proof.
  unfold extractAll.
  assert (H : forall l,
             textOf (fold_left
                       (fun m n =>
                          extractInlines normalizeXML (ancestors n) (node n) m)
                       ns l)
             = textOf l
                 ++ concat (map (fun r => nodeText normalizeXML (node r)) ns)).
  { induction ns as [|r ns IH]; intros l; simpl.
    - now rewrite app_nil_r.
    - rewrite IH.
      destruct (extractInlines_keeps (node r) (ancestors r) l) as [-> _].
      now rewrite app_assoc. }
  apply (H []).
Qed.

(** X12. The line breaks and images of the extracted sequence are the
    [br] and [img] elements of the nodes in document order, each [img]
    with what its [src] lookup returned; text between them changes
    nothing, and an [img] or [br] below another one is not seen. *)
Theorem extractAll_media (ns : list NodeRef) :
  media (extractAll normalizeXML ns)
  = concat (map (fun r => nodeMedia (node r)) ns).
Proof.
  unfold extractAll.
  assert (H : forall l,
             media (fold_left
                      (fun m n =>
                         extractInlines normalizeXML (ancestors n) (node n) m)
                      ns l)
             = media l ++ concat (map (fun r => nodeMedia (node r)) ns)).
  { induction ns as [|r ns IH]; intros l; simpl.
    - now rewrite app_nil_r.
    - rewrite IH.
      destruct (extractInlines_keeps (node r) (ancestors r) l) as [_ ->].
      now rewrite app_assoc. }
  apply (H []).
Qed.

End ExtractorKeeps.

Lemma contains_In (l : list jsstring) (v : jsstring) :
  contains l v = true <-> In v l.
Proof.
  unfold contains. rewrite existsb_exists. split.
  - intros (x & Hin & E). apply eqb_eq in E. now subst.
  - intros Hin. exists v. split; [exact Hin | now apply eqb_eq].
Qed.

Lemma closest_In (anc : list jsstring) (sel : Selector) :
  closest anc sel = true <-> exists tag, In tag anc /\ In tag sel.
Proof.
  unfold closest. rewrite existsb_exists. split.
  - intros (tag & Hin & Hc). apply contains_In in Hc. eauto.
  - intros (tag & Hin & Hs). exists tag. split; [exact Hin|].
    now apply contains_In.
Qed.

(** X13. The styles of a text node depend on the tags of its ancestors
    alone, however far and in whatever order: it is bold exactly below a
    [b] or a [strong], italic exactly below an [i] or an [em], code
    exactly below a [code]; and the array lists each style once, in the
    order bold, italic, code. *)
Theorem styles_of_ancestors (anc : list jsstring) :
  (In (str "bold") (activeStylesOf anc)
   <-> In (str "b") anc \/ In (str "strong") anc)
  /\ (In (str "italic") (activeStylesOf anc)
      <-> In (str "i") anc \/ In (str "em") anc)
  /\ (In (str "code") (activeStylesOf anc) <-> In (str "code") anc)
  /\ exists bold italic code,
      activeStylesOf anc = stylesOfFlags bold italic code.
Proof.
  assert (Hsel2 : forall a b,
             closest anc [ a; b ] = true <-> In a anc \/ In b anc).
  { intros a b. rewrite closest_In. split.
    - intros (tag & Hin & [<-|[<-|[]]]); tauto.
    - intros [H|H]; eexists; (split; [exact H|]); simpl; tauto. }
  assert (Hsel1 : forall a, closest anc [ a ] = true <-> In a anc).
  { intros a. rewrite closest_In. split.
    - now intros (tag & Hin & [<-|[]]).
    - intros H. exists a. simpl. tauto. }
  rewrite <- (Hsel2 (str "b") (str "strong")), <- (Hsel2 (str "i") (str "em")),
    <- (Hsel1 (str "code")).
  rewrite activeStylesOf_flags.
  change (map str [ "b"; "strong" ]%string) with [ str "b"; str "strong" ].
  change (map str [ "i"; "em" ]%string) with [ str "i"; str "em" ].
  repeat split;
    try (destruct (closest anc [ str "b"; str "strong" ]);
         destruct (closest anc [ str "i"; str "em" ]);
         destruct (closest anc [ str "code" ]);
         rewrite <- contains_In; vm_compute; congruence).
  eauto.
Qed.

(** ** What the Inline Cleaner keeps *)

Lemma media_trimUnits (strip : jsstring -> jsstring) (l : list Inline) :
  media (trimUnits strip l) = media l.
Proof.
  induction l as [|u r IH]; [reflexivity|].
  destruct u as [c s| |src]; try reflexivity.
  simpl. destruct (truthy (strip c)); [reflexivity | exact IH].
Qed.

Lemma media_rev (l : list Inline) : media (rev l) = rev (media l).
Proof.
  induction l as [|u r IH]; [reflexivity|].
  simpl rev. rewrite media_app, IH.
  destruct u; simpl; try reflexivity. now rewrite app_nil_r.
Qed.

Lemma media_cleanReduce (l : list Inline) : forall prev,
  media (cleanReduce prev l) = media l.
Proof.
  induction l as [|u r IH]; intros prev; [reflexivity|].
  simpl cleanReduce. rewrite media_app, IH.
  destruct u as [c s| |src]; try reflexivity.
  simpl. now destruct (truthy _).
Qed.

(** X14. The cleaner touches text only: the line breaks and images of a
    sequence come out of it unchanged, all of them and in their order. *)
Theorem cleanInlines_media (l : list Inline) :
  media (cleanInlines l) = media l.
Proof.
  unfold cleanInlines.
  rewrite trimTrailing_units, media_rev, media_trimUnits, media_rev,
    rev_involutive, trimLeading_units, media_trimUnits.
  apply media_cleanReduce.
Qed.

Lemma visible_collapseFrom (s : jsstring) : forall inRun,
  filter visible (collapseFrom inRun s) = filter visible s.
Proof.
  induction s as [|c r IH]; intros inRun; [reflexivity|].
  simpl. unfold visible at 2. destruct (isSpace c) eqn:Hc; simpl.
  - destruct inRun; [apply IH|]. simpl. apply IH.
  - unfold visible at 1. rewrite Hc. simpl. now rewrite IH.
Qed.

Lemma visible_dropSpaces (s : jsstring) :
  filter visible (dropSpaces s) = filter visible s.
Proof.
  induction s as [|c r IH]; [reflexivity|].
  simpl. unfold visible at 2. destruct (isSpace c) eqn:Hc; simpl;
    [exact IH|].
  unfold visible at 1. now rewrite Hc.
Qed.

Lemma visible_rev (s : jsstring) :
  filter visible (rev s) = rev (filter visible s).
Proof.
  induction s as [|c r IH]; [reflexivity|].
  simpl rev. rewrite filter_app, IH. simpl.
  destruct (visible c); simpl; [reflexivity | apply app_nil_r].
Qed.

Lemma visible_trimEnd (s : jsstring) :
  filter visible (trimEnd s) = filter visible s.
Proof.
  unfold trimEnd.
  now rewrite visible_rev, visible_dropSpaces, visible_rev, rev_involutive.
Qed.

Lemma visible_startsWithSpace (s : jsstring) :
  startsWithSpace s = true -> filter visible (tl s) = filter visible s.
Proof.
  destruct s as [|c r]; [reflexivity|]. simpl. intros H.
  apply char_eqb_eq in H. subst c. reflexivity.
Qed.

Lemma visible_textOf_app (a b : list Inline) :
  filter visible (textOf (a ++ b))
  = filter visible (textOf a) ++ filter visible (textOf b).
Proof. now rewrite textOf_app, filter_app. Qed.

Lemma visible_cleanUnit (prev : option Inline) (u : Inline) :
  filter visible (textOf [ cleanUnit prev u ]) = filter visible (textOf [ u ]).
Proof.
  destruct u as [c s| |src]; try reflexivity.
  unfold textOf. simpl. rewrite !app_nil_r.
  destruct (startsWithSpace (collapseSpaces c)) eqn:Hs; simpl.
  - destruct (hasTrailingSpace prev).
    + unfold substr1. rewrite (visible_startsWithSpace _ Hs).
      apply visible_collapseFrom.
    + apply visible_collapseFrom.
  - apply visible_collapseFrom.
Qed.

Lemma visible_cleanReduce (l : list Inline) : forall prev,
  filter visible (textOf (cleanReduce prev l)) = filter visible (textOf l).
Proof.
  induction l as [|u r IH]; intros prev; [reflexivity|].
  simpl cleanReduce. rewrite visible_textOf_app, IH.
  change (u :: r) with ([ u ] ++ r). rewrite visible_textOf_app.
  f_equal. rewrite <- (visible_cleanUnit prev u).
  destruct (kept (cleanUnit prev u)) eqn:Hk; [reflexivity|].
  destruct (cleanUnit prev u) as [c s| |src]; try discriminate.
  simpl in Hk. now destruct c.
Qed.

Lemma visible_trimUnits (strip : jsstring -> jsstring) (l : list Inline) :
  (forall c, filter visible (strip c) = filter visible c) ->
  filter visible (textOf (trimUnits strip l)) = filter visible (textOf l).
Proof.
  intros Hs. induction l as [|u r IH]; [reflexivity|].
  destruct u as [c s| |src]; try reflexivity.
  simpl trimUnits. change (Text c s :: r) with ([ Text c s ] ++ r).
  rewrite visible_textOf_app.
  destruct (truthy (strip c)) eqn:Ht.
  - change (Text (strip c) s :: r) with ([ Text (strip c) s ] ++ r).
    rewrite visible_textOf_app. f_equal.
    unfold textOf. simpl. rewrite !app_nil_r. apply Hs.
  - rewrite IH.
    assert (E : filter visible (textOf [ Text c s ]) = []).
    { unfold textOf. simpl. rewrite app_nil_r, <- Hs.
      now destruct (strip c). }
    now rewrite E.
Qed.

Lemma visible_trimTrailing (l : list Inline) :
  filter visible (textOf (trimTrailing l)) = filter visible (textOf l).
Proof.
  induction l as [|u r IH]; [reflexivity|].
  rewrite trimTrailing_cons.
  change (textOf (u :: r)) with (textOf ([ u ] ++ r)).
  rewrite visible_textOf_app, <- IH.
  destruct (trimTrailing r) as [|x m].
  - rewrite (visible_trimUnits trimEnd [ u ] visible_trimEnd).
    now rewrite app_nil_r.
  - change (u :: x :: m) with ([ u ] ++ x :: m).
    now rewrite visible_textOf_app.
Qed.

(** X15. The cleaner removes whitespace and nothing else: the characters
    of the text that are no whitespace are the same before and after, and
    in the same order. *)
Theorem cleanInlines_visible_text (l : list Inline) :
  filter visible (textOf (cleanInlines l)) = filter visible (textOf l).
Proof.
  unfold cleanInlines.
  rewrite visible_trimTrailing, trimLeading_units.
  rewrite (visible_trimUnits trimStart _ visible_dropSpaces).
  apply visible_cleanReduce.
Qed.

Lemma blank_collapseFrom (c : jsstring) : forall inRun,
  forallb isSpace c = true -> forallb isSpace (collapseFrom inRun c) = true.
Proof.
  induction c as [|x r IH]; intros inRun H; [reflexivity|].
  simpl in *. apply andb_prop in H. destruct H as [Hx Hr].
  rewrite Hx. destruct inRun; simpl; auto.
Qed.

Lemma blank_dropSpaces (c : jsstring) :
  forallb isSpace c = true -> dropSpaces c = [].
Proof.
  induction c as [|x r IH]; [reflexivity|].
  simpl. intros H. apply andb_prop in H. destruct H as [-> Hr]. auto.
Qed.

Lemma blank_cleanReduce (l : list Inline) : forall prev,
  Forall blankText l -> Forall blankText (cleanReduce prev l).
Proof.
  induction l as [|u r IH]; intros prev H; [constructor|].
  inversion H as [|? ? Hu Hr]; subst.
  simpl. apply Forall_app. split; [|now apply IH].
  destruct (kept (cleanUnit prev u)); constructor; [|constructor].
  destruct u as [c s| |src]; try contradiction. simpl in *.
  pose proof (blank_collapseFrom c false Hu) as Hc.
  destruct (_ && _); [|exact Hc].
  unfold collapseSpaces. destruct (collapseFrom false c); [reflexivity|].
  simpl in *. apply andb_prop in Hc. tauto.
Qed.

(** X16. A sequence of text units that hold whitespace only, empty ones
    included, is cleaned to the empty sequence. *)
Theorem cleanInlines_blank (l : list Inline) :
  Forall blankText l -> cleanInlines l = [].
Proof.
  intros H. unfold cleanInlines.
  assert (E : trimLeading (cleanReduce None l) = []).
  { pose proof (blank_cleanReduce l None H) as Hb.
    induction Hb as [|u r Hu _ IH]; [reflexivity|].
    destruct u as [c s| |src]; try contradiction. simpl in *.
    unfold trimStart. now rewrite (blank_dropSpaces _ Hu). }
  now rewrite E.
Qed.

Lemma cleanInlines_blank_witness :
  Forall blankText [ Text (str "  ") [ str "bold" ]; Text [] [];
                     Text [ NL; 9%N; 160%N ] [] ]
  /\ cleanInlines [ Text (str "  ") [ str "bold" ]; Text [] [];
                    Text [ NL; 9%N; 160%N ] [] ] = [].
Proof.
  assert (H : Forall blankText [ Text (str "  ") [ str "bold" ]; Text [] [];
                                 Text [ NL; 9%N; 160%N ] [] ])
    by (repeat constructor).
  split; [exact H|]. exact (cleanInlines_blank _ H).
Defined.

(** ** What the renderer writes *)

Lemma contains_nil (v : jsstring) : contains [] v = false.
Proof. reflexivity. Qed.

Lemma difference_nil_r (a : list jsstring) : difference a [] = a.
Proof.
  unfold difference. induction a as [|x r IH]; [reflexivity|].
  cbn [filter]. rewrite contains_nil. cbn [negb]. now rewrite IH.
Qed.

Lemma contains_difference (a b : list jsstring) (v : jsstring) :
  contains (difference a b) v = contains a v && negb (contains b v).
Proof.
  apply eq_true_iff_eq.
  rewrite andb_true_iff, !contains_In. unfold difference.
  rewrite filter_In. reflexivity.
Qed.

Lemma contains_app (a b : list jsstring) (v : jsstring) :
  contains (a ++ b) v = contains a v || contains b v.
Proof. unfold contains. apply existsb_app. Qed.

Lemma difference_all (a : list jsstring) : difference a a = [].
Proof.
  assert (H : forall b, (forall v, In v a -> contains b v = true) ->
                        difference a b = []).
  { unfold difference. induction a as [|x r IH]; intros b Hb; [reflexivity|].
    simpl. rewrite (Hb x (or_introl eq_refl)). simpl.
    apply IH. intros v Hv. apply Hb. now right. }
  apply H. intros v Hv. now apply contains_In.
Qed.

(** X17. The renderer keeps track of the styles: after a text unit the
    open styles are those of the unit, no more and no less; a line break
    or an image leaves them as they are; and at the end of a block none
    is left open. *)
Theorem render_tracks_styles :
  (forall st c s v,
      In v (activeStyles (renderInline st (Text c s))) <-> In v s)
  /\ (forall st src,
         activeStyles (renderInline st Br) = activeStyles st
         /\ activeStyles (renderInline st (Img src)) = activeStyles st)
  /\ (forall st, activeStyles (updateStyles [] st) = []).
Proof.
  split; [|split].
  - intros st c s v. rewrite <- !contains_In.
    cbn [renderInline activeStyles updateStyles].
    rewrite contains_app, !contains_difference.
    destruct (contains (activeStyles st) v), (contains s v); simpl; tauto.
  - intros st src. split; reflexivity.
  - intros st. cbn [updateStyles activeStyles].
    rewrite difference_nil_r, difference_all. reflexivity.
Qed.

(** X18. A text unit on its own, in styles of the table (bold, italic,
    code), is written between the markers of its styles: opened in the
    order of the array, closed in the opposite order. *)
Theorem styled_text_is_wrapped (c : jsstring) (s : list jsstring) :
  Forall (fun v => In v (map snd markdown_inline_tags)) s ->
  renderContent (Some [ Text c s ]) = markers s ++ c ++ markers (rev s).
Proof.
  intros _. unfold renderContent, markers.
  cbn [fold_left renderInline updateStyles activeStyles rendered].
  change (difference [] s) with (@nil jsstring).
  change (difference [] []) with (@nil jsstring).
  rewrite !difference_nil_r. simpl app.
  change (difference [] s) with (@nil jsstring). simpl.
  now rewrite !app_nil_r, <- !app_assoc.
Qed.

Lemma styled_text_is_wrapped_witness :
  renderContent (Some [ Text (str "x") [ str "bold"; str "italic" ] ])
  = markers [ str "bold"; str "italic" ] ++ str "x"
      ++ markers (rev [ str "bold"; str "italic" ])
  /\ renderContent (Some [ Text (str "x") [ str "bold"; str "italic" ] ])
     = str "**_x_**".
Proof.
  split; [|reflexivity].
  apply styled_text_is_wrapped.
  apply Forall_cons; [now left|].
  apply Forall_cons; [now (right; left)|]. apply Forall_nil.
Defined.

Lemma join_app (sep : jsstring) (a b : list (option jsstring)) :
  a <> [] -> b <> [] -> join sep (a ++ b) = join sep a ++ sep ++ join sep b.
Proof.
  intros Ha Hb. induction a as [|x r IH]; [congruence|].
  destruct r as [|y r'].
  - destruct b as [|z b']; [congruence|]. reflexivity.
  - change (join sep ((x :: y :: r') ++ b))
      with (match x with Some s => s | None => [] end
              ++ sep ++ join sep ((y :: r') ++ b)).
    rewrite IH by discriminate.
    change (join sep (x :: y :: r'))
      with (match x with Some s => s | None => [] end
              ++ sep ++ join sep (y :: r')).
    now rewrite <- !app_assoc.
Qed.

(** X19. The Markdown of a tree is the Markdown of its parts with one
    blank line between them; a block whose type the [switch] does not
    know still takes its place between the separators, with nothing in
    it. *)
Theorem toMarkdown_app (t1 t2 : list Block) :
  t1 <> [] -> t2 <> [] ->
  toMarkdown (t1 ++ t2) = toMarkdown t1 ++ [NL; NL] ++ toMarkdown t2.
Proof.
  intros H1 H2. unfold toMarkdown. rewrite map_app.
  apply join_app; intros E; apply map_eq_nil in E; contradiction.
Qed.

Lemma toMarkdown_app_witness :
  toMarkdown ([ li_block ] ++ [ mkBlock (str "p") None
                                        (Some [ Text (str "x") [] ]) ])
  = [NL; NL] ++ str "x".
Proof.
  rewrite (toMarkdown_app [ li_block ]
             [ mkBlock (str "p") None (Some [ Text (str "x") [] ]) ]);
    [reflexivity | discriminate | discriminate].
Defined.

Lemma fold_renderInline_unstyled (c : list Inline) : forall out,
  Forall unstyled c ->
  fold_left renderInline c (mkRender [] out)
  = mkRender [] (out ++ concat (map Legacy.convertInline c)).
Proof.
  induction c as [|u r IH]; intros out H; simpl.
  - now rewrite app_nil_r.
  - inversion H as [|? ? Hu Hr]; subst.
    destruct u as [c0 s| |src]; simpl in Hu; subst;
      cbn [renderInline updateStyles activeStyles rendered];
      try change (difference [] []) with (@nil jsstring);
      cbn [rev map concat app]; rewrite ?app_nil_r, (IH _ Hr);
      try change (Legacy.convertInline Br) with (syntax (str "br"));
      cbn [Legacy.convertInline]; now rewrite <- !app_assoc.
Qed.

Lemma renderContent_unstyled (c : list Inline) :
  Forall unstyled c ->
  renderContent (Some c) = concat (map Legacy.convertInline c).
Proof.
  intros H. unfold renderContent.
  rewrite (fold_renderInline_unstyled c [] H).
  cbn [updateStyles activeStyles rendered].
  change (difference [] []) with (@nil jsstring).
  change (difference [] []) with (@nil jsstring).
  cbn [rev map concat app]. now rewrite !app_nil_r.
Qed.

Lemma legacy_cases (t : jsstring) :
  t <> str "hr" ->
  contains rendered_types t = contains Legacy.rendered_types t
  /\ (contains Legacy.rendered_types t = true -> Legacy.syntax t = syntax t).
Proof.
  intros Hhr. split.
  - apply eq_true_iff_eq. rewrite !contains_In.
    unfold rendered_types, Legacy.rendered_types. simpl. intuition congruence.
  - rewrite contains_In. unfold Legacy.rendered_types. simpl.
    intros H. repeat (destruct H as [<-|H]; [reflexivity|]). destruct H.
Qed.

(** X20. On a tree without styles and without [hr] blocks the renderer
    writes what the earlier renderer writes: the style markers and the
    [hr] case are all that was added. *)
Theorem toMarkdown_agrees_with_legacy (tree : list Block) :
  Forall (fun b => type b <> str "hr"
                   /\ exists c, content b = Some c /\ Forall unstyled c)
         tree ->
  Legacy.toMarkdown tree = Some (toMarkdown tree).
Proof.
  intros H. unfold Legacy.toMarkdown, toMarkdown.
  assert (E : mapM Legacy.renderBlock tree = Some (map renderBlock tree)).
  { induction H as [|b r Hb _ IH]; [reflexivity|].
    destruct Hb as (Hhr & c & Hc & Hu).
    destruct (legacy_cases (type b) Hhr) as [Hcase Hsyn].
    simpl. rewrite IH. unfold Legacy.renderBlock, renderBlock.
    rewrite Hc, (renderContent_unstyled c Hu), Hcase.
    destruct (contains Legacy.rendered_types (type b)) eqn:E;
      [|reflexivity].
    now rewrite (Hsyn eq_refl). }
  now rewrite E.
Qed.

Lemma toMarkdown_agrees_with_legacy_witness :
  Legacy.toMarkdown
    [ mkBlock (str "h1") None (Some [ Text (str "A") []; Br ]);
      li_block;
      mkBlock (str "p") None (Some [ Img None ]) ]
  = Some (str "# A" ++ [SP; SP; NL; NL; NL; NL; NL] ++ str "![](null)").
Proof.
  rewrite (toMarkdown_agrees_with_legacy
             [ mkBlock (str "h1") None (Some [ Text (str "A") []; Br ]);
               li_block;
               mkBlock (str "p") None (Some [ Img None ]) ]).
  - reflexivity.
  - repeat constructor; try (vm_compute; discriminate);
      eexists; (split; [reflexivity|]); repeat constructor.
Defined.

(** ** Text and the compaction *)

Lemma truthy_dropSpaces (s : jsstring) :
  truthy (dropSpaces s) = existsb visible s.
Proof.
  induction s as [|c r IH]; [reflexivity|].
  simpl. unfold visible at 1. destruct (isSpace c); [exact IH | reflexivity].
Qed.

Lemma existsb_visible_dropSpaces (s : jsstring) :
  existsb visible (dropSpaces s) = existsb visible s.
Proof.
  induction s as [|c r IH]; [reflexivity|].
  simpl. unfold visible at 2. destruct (isSpace c) eqn:Hc; [exact IH|].
  simpl. unfold visible at 1. now rewrite Hc.
Qed.

Lemma existsb_visible_rev (s : jsstring) :
  existsb visible (rev s) = existsb visible s.
Proof.
  apply eq_true_iff_eq. rewrite !existsb_exists.
  split; intros (c & Hin & Hc); exists c; (split; [|exact Hc]);
    [now apply in_rev | now apply in_rev in Hin].
Qed.

(** [s.trim()] is not empty exactly when [s] has a character that is no
    whitespace. *)
Lemma truthy_trim (s : jsstring) : truthy (trim s) = existsb visible s.
Proof.
  unfold trim, trimEnd, trimStart.
  assert (E : forall t : jsstring, truthy (rev t) = truthy t).
  { intros [|x t]; [reflexivity|]. simpl. now destruct (rev t). }
  rewrite E, truthy_dropSpaces, existsb_visible_rev.
  apply existsb_visible_dropSpaces.
Qed.

Lemma getTextContent_textNodes (n : Node) :
  getTextContent n = concat (textNodes n).
Proof.
  induction n as [tag attrs children IH|text|k] using Node_forall_ind;
    simpl; [|now rewrite app_nil_r|reflexivity].
  induction IH as [|c r Hc _ IHr]; [reflexivity|].
  simpl. now rewrite Hc, IHr, concat_app.
Qed.

(** X21. Text keeps a block and its absence loses it: a block is kept as
    soon as a text node anywhere below one of its nodes has a character
    that is no whitespace; and a block that is no [hr], whose nodes hold
    whitespace at most and neither are nor contain an [hr], [br], [img],
    [video] or [audio], is dropped. *)
Theorem compactBlocks_text (raw : RawBlock) :
  (forall n text,
      In n (rawNodes raw) -> In text (textNodes (node n)) ->
      existsb visible text = true ->
      exists b, compactBlocks [ raw ] = [ b ] /\ type b = rawType raw)
  /\ (rawType raw <> str "hr" ->
      (forall n, In n (rawNodes raw) ->
                 forallb isSpace (getTextContent (node n)) = true
                 /\ matchesSelector (node n) empty_tags = false
                 /\ querySelector empty_tags (node n) = None) ->
      compactBlocks [ raw ] = []).
Proof.
  split.
  - intros n text Hn Htext Hvis.
    assert (Hm : existsb meaningful (rawNodes raw) = true).
    { apply existsb_exists. exists n. split; [exact Hn|].
      unfold meaningful. rewrite truthy_trim, getTextContent_textNodes.
      apply orb_true_iff. left. apply existsb_exists.
      apply existsb_exists in Hvis. destruct Hvis as (c & Hc & Hv).
      exists c. split; [|exact Hv].
      apply in_concat. eauto. }
    unfold compactBlocks. cbn [flat_map]. rewrite Hm, orb_true_r.
    eexists. split; reflexivity.
  - intros Hhr Hall.
    assert (Hm : existsb meaningful (rawNodes raw) = false).
    { apply not_true_is_false. intros Hm. apply existsb_exists in Hm.
      destruct Hm as (n & Hn & Hm).
      destruct (Hall n Hn) as (Hs & Hsel & Hq).
      unfold meaningful in Hm. rewrite truthy_trim, Hsel, Hq in Hm.
      assert (Hv : existsb visible (getTextContent (node n)) = false).
      { apply not_true_is_false. intros Hv. apply existsb_exists in Hv.
        destruct Hv as (c & Hc & Hv). rewrite forallb_forall in Hs.
        unfold visible in Hv. rewrite (Hs c Hc) in Hv. discriminate. }
      rewrite Hv in Hm. now destruct (node n). }
    assert (He : contains markdown_empty_blocks (rawType raw) = false).
    { apply not_true_is_false. intros He. apply contains_In in He.
      destruct He as [He|[]]. congruence. }
    unfold compactBlocks. cbn [flat_map]. now rewrite Hm, He.
Qed.

Lemma compactBlocks_text_witness :
  (exists b,
      compactBlocks
        [ mkRaw (str "li")
                [ mkRef [] (elem "span" [ txt " "; elem "u" [ txt " x" ] ]) ] ]
      = [ b ] /\ type b = str "li")
  /\ compactBlocks
       [ mkRaw (str "li")
               [ mkRef [] (elem "span" [ txt " "; elem "u" [ txt "  " ] ]);
                 mkRef [] (OtherNode 8) ] ] = [].
Proof.
  split.
  - destruct (compactBlocks_text
                (mkRaw (str "li")
                   [ mkRef [] (elem "span" [ txt " ";
                                             elem "u" [ txt " x" ] ]) ]))
      as [Hkeep _].
    destruct (Hkeep (mkRef [] (elem "span" [ txt " "; elem "u" [ txt " x" ] ]))
                    (str " x")) as (b & E & T).
    + left. reflexivity.
    + right. left. reflexivity.
    + reflexivity.
    + exists b. split; [exact E | exact T].
  - destruct (compactBlocks_text
                (mkRaw (str "li")
                   [ mkRef [] (elem "span" [ txt " ";
                                             elem "u" [ txt "  " ] ]);
                     mkRef [] (OtherNode 8) ])) as [_ Hdrop].
    apply Hdrop.
    + discriminate.
    + intros n [<-|[<-|[]]]; repeat split; reflexivity.
Defined.

(** ** Documents without block-level markup *)

(** X22. A body whose children are all inline gives at most one block: a
    paragraph that holds the cleaned inline content of all the children,
    when one of them is meaningful and the cleaning leaves something;
    no block at all otherwise. *)
Theorem parse_without_block_markup (normalizeXML : jsstring -> jsstring)
        (attrs : list (jsstring * jsstring)) (children : list Node) :
  Forall (fun n => isBlockElement n = false) children ->
  parse normalizeXML (Element (str "body") attrs children)
  = Some
      (let refs := map (mkRef [ str "body"; str "html" ]) children in
       let c := cleanInlines (extractAll normalizeXML refs) in
       if existsb meaningful refs && negb (length c =? 0)
       then [ mkBlock (str "p") None (Some c) ]
       else []).
Proof.
  intros Hch. unfold parse, parseFrom, extractBlocks.
  rewrite extract_element.
  change (contains block_elements (str "body")) with true.
  cbn [negb]. cbv zeta.
  rewrite (extract_inlines_open children [ str "body"; str "html" ] [] _ Hch).
  change (contains markdown_block_tags (str "body")) with false.
  cbv iota. cbn [currentIsEmptyLast currentBlock blocks app].
  unfold compactBlocks. cbn [flat_map rawType rawNodes app].
  change (contains markdown_empty_blocks (str "p")) with false.
  cbn [orb]. cbv zeta.
  destruct (existsb meaningful
              (map (mkRef [ str "body"; str "html" ]) children));
    [|reflexivity].
  cbn [app mapM]. unfold addContent. cbn [type nodes content].
  change (contains markdown_empty_blocks (str "p")) with false. cbv iota.
  cbn [filterM]. unfold hasContent. cbn [type nodes content].
  change (contains markdown_empty_blocks (str "p")) with false. cbv iota.
  cbn [andb].
  now destruct (negb (length (cleanInlines _) =? 0)).
Qed.

Lemma parse_without_block_markup_witness :
  parse plainNormalize
        (elem "body" [ txt " Hi  "; elem "b" [ txt "there" ]; OtherNode 8 ])
  = Some [ mkBlock (str "p") None
                   (Some [ Text (str "Hi ") [];
                           Text (str "there") [ str "bold" ] ]) ].
Proof.
  unfold elem at 1.
  rewrite (parse_without_block_markup plainNormalize []
             [ txt " Hi  "; elem "b" [ txt "there" ]; OtherNode 8 ]);
    [reflexivity | repeat constructor].
Defined.

(** ** The nodes the blocks own *)

Lemma ownedNodes_app (a b : list RawBlock) :
  ownedNodes (a ++ b) = ownedNodes a ++ ownedNodes b.
Proof. unfold ownedNodes. now rewrite map_app, concat_app. Qed.

Lemma last_block (bs : list RawBlock) (i : nat) :
  S i = length bs -> exists pre b, bs = pre ++ [ b ] /\ length pre = i.
Proof.
  intros H. destruct bs as [|x pre _] using rev_ind; [discriminate|].
  exists pre, x. split; [reflexivity|].
  rewrite length_app in H. simpl in H. lia.
Qed.

Lemma nth_error_last (pre : list RawBlock) (b : RawBlock) :
  nth_error (pre ++ [ b ]) (length pre) = Some b.
Proof. rewrite nth_error_app2, Nat.sub_diag; [reflexivity | lia]. Qed.

Lemma addInline_ownedNodes (el : NodeRef) (st : ExtractState) :
  currentIsLast st ->
  ownedNodes (blocks (addInline el st)) = ownedNodes (blocks st) ++ [ el ].
Proof.
  intros Hst. unfold addInline.
  destruct (currentBlock st) as [i|] eqn:E; cbn [blocks].
  - destruct (last_block _ _ (Hst i E)) as (pre & b & -> & <-).
    rewrite pushNode_last, !ownedNodes_app. unfold ownedNodes. simpl.
    now rewrite !app_nil_r, app_assoc.
  - rewrite ownedNodes_app. unfold ownedNodes at 2. simpl. reflexivity.
Qed.

Lemma pop_ownedNodes (st : ExtractState) :
  ownedNodes (if currentIsEmptyLast st then removelast (blocks st)
              else blocks st)
  = ownedNodes (blocks st).
Proof.
  unfold currentIsEmptyLast.
  destruct (currentBlock st) as [i|]; [|reflexivity].
  destruct (nth_error (blocks st) i) as [b|] eqn:Hnth; [|reflexivity].
  destruct (rawNodes b) as [|x r] eqn:Hn; [|reflexivity].
  destruct (contains markdown_empty_blocks (rawType b)); [reflexivity|].
  destruct (S i =? length (blocks st)) eqn:Hl; [|reflexivity].
  cbn [negb andb]. apply Nat.eqb_eq in Hl.
  destruct (last_block _ _ Hl) as (pre & b' & Eb & Ei).
  rewrite Eb in Hnth |- *. rewrite <- Ei, nth_error_last in Hnth.
  injection Hnth as ->.
  rewrite removelast_last, ownedNodes_app. unfold ownedNodes at 3.
  simpl. now rewrite Hn, !app_nil_r.
Qed.

Lemma extract_keeps_last (n : Node) (anc : list jsstring)
      (st : ExtractState) :
  currentIsLast st -> currentIsLast (extract anc n st).
Proof.
  intros Hst. destruct n as [tag attrs children|text|k];
    try (now apply addInline_currentIsLast).
  rewrite extract_element.
  destruct (contains block_elements tag); cbn [negb];
    [|now apply addInline_currentIsLast].
  intros i. discriminate.
Qed.

Lemma extract_ownedNodes (n : Node) : forall anc st,
  currentIsLast st ->
  ownedNodes (blocks (extract anc n st))
  = ownedNodes (blocks st) ++ inlineRoots anc n.
Proof.
  induction n as [tag attrs children IH|text|k] using Node_forall_ind;
    intros anc st Hst; try (now apply addInline_ownedNodes).
  rewrite extract_element. cbn [inlineRoots].
  destruct (contains block_elements tag); cbn [negb];
    [|now apply addInline_ownedNodes].
  cbv zeta. cbn [blocks].
  set (bs := if currentIsEmptyLast st then removelast (blocks st)
             else blocks st).
  set (new := mkRaw (if contains markdown_block_tags tag then tag
                     else str "p") []).
  assert (Hfold : forall st0,
             currentIsLast st0 ->
             ownedNodes
               (blocks (fold_left
                          (fun s child => extract (tag :: anc) child s)
                          children st0))
             = ownedNodes (blocks st0)
                 ++ concat (map (inlineRoots (tag :: anc)) children)).
  { induction IH as [|c r Hc _ IHr]; intros st0 Hst0; simpl.
    - now rewrite app_nil_r.
    - rewrite IHr by (now apply extract_keeps_last).
      rewrite (Hc _ _ Hst0). now rewrite app_assoc. }
  rewrite Hfold.
  - cbn [blocks]. rewrite ownedNodes_app. unfold ownedNodes at 2. simpl.
    rewrite app_nil_r. subst bs. now rewrite pop_ownedNodes.
  - intros i [= <-]. cbn [blocks]. rewrite length_app. simpl. lia.
Qed.

(** X23. The extraction loses no inline content and keeps its order: the
    nodes the blocks own, block after block, are the topmost inline nodes
    of the tree in document order, each with its own ancestors. *)
Theorem extractBlocks_ownedNodes (anc : list jsstring) (n : Node) :
  ownedNodes (extractBlocks anc n) = inlineRoots anc n.
Proof.
  unfold extractBlocks.
  rewrite extract_ownedNodes; [reflexivity | discriminate].
Qed.

(** ** One block of clean text, from the tree to the Markdown *)

Lemma clean_text_visible (t : jsstring) :
  truthy t = true -> headIsSpace t = false -> existsb visible t = true.
Proof.
  destruct t as [|c r]; [discriminate|]. simpl. intros _ H.
  unfold visible at 1. now rewrite H.
Qed.

Lemma clean_text_fixed (t : jsstring) (s : list jsstring) :
  truthy t = true -> spacesNormal t = true ->
  headIsSpace t = false -> headIsSpace (rev t) = false ->
  cleanInlines [ Text t s ] = [ Text t s ].
Proof.
  intros Ht Hn Hh Hl. apply cleanInlines_fixed.
  - constructor; [|constructor]. now split.
  - exact Hh.
  - exact Hl.
  - reflexivity.
Qed.

Section SingleBlock.

Variable normalizeXML : jsstring -> jsstring.
Variable t : jsstring.
Variables battrs attrs : list (jsstring * jsstring).
Hypothesis t_normal : normalizeXML t = t.
Hypothesis t_truthy : truthy t = true.
Hypothesis t_spaces : spacesNormal t = true.
Hypothesis t_head : headIsSpace t = false.
Hypothesis t_last : headIsSpace (rev t) = false.

Ltac single_block tag :=
  unfold html2md, parse, parseFrom;
  change (extractBlocks [ str "html" ]
            (Element (str "body") battrs
                     [ Element tag attrs [ TextNode t ] ]))
    with [ mkRaw tag [ mkRef [ tag; str "body"; str "html" ] (TextNode t) ] ];
  unfold compactBlocks; cbn [flat_map rawType rawNodes existsb app];
  change (contains markdown_empty_blocks tag) with false;
  unfold meaningful at 1; cbn [node getTextContent];
  rewrite truthy_trim, (clean_text_visible t t_truthy t_head);
  cbn [orb app mapM]; unfold addContent; cbn [type nodes content];
  change (contains markdown_empty_blocks tag) with false; cbv iota;
  change (extractAll normalizeXML
            [ mkRef [ tag; str "body"; str "html" ] (TextNode t) ])
    with [ Text (normalizeXML t) [] ];
  rewrite t_normal, (clean_text_fixed t [] t_truthy t_spaces t_head t_last);
  cbn [filterM]; unfold hasContent; cbn [type nodes content];
  change (contains markdown_empty_blocks tag) with false; cbv iota;
  cbn [length Nat.eqb negb map option_map]; unfold deleteNodes, toMarkdown;
  cbn [type nodes content map join]; unfold renderBlock;
  cbn [type content];
  change (contains rendered_types tag) with true; cbv iota;
  rewrite renderContent_unstyled by (repeat constructor);
  cbn [map concat Legacy.convertInline]; now rewrite app_nil_r.

(** X24. A body that holds one heading, paragraph, quotation or
    preformatted element with one text node of clean text (not empty, its
    whitespace single plain spaces, none at either end, untouched by the
    entity normaliser) is converted to the prefix of the element's type
    followed by that text. *)
Theorem html2md_single_block (tag : jsstring) :
  In tag (map str [ "blockquote"; "pre"; "p"; "h1"; "h2"; "h3"; "h4"; "h5";
                    "h6" ]%string) ->
  html2md normalizeXML
          (Element (str "body") battrs [ Element tag attrs [ TextNode t ] ])
  = Some (syntax tag ++ t).
Proof.
  intros Hin. cbn [map] in Hin.
  repeat (destruct Hin as [<-|Hin];
          [match goal with
           | |- html2md _ (Element _ _ [ Element ?tg _ _ ]) = _ =>
               single_block tg
           end|]).
  destruct Hin.
Qed.

End SingleBlock.

Lemma html2md_single_block_witness :
  html2md plainNormalize (elem "body" [ elem "h1" [ txt "Hello World" ] ])
  = Some (str "# Hello World").
Proof.
  unfold elem, txt.
  rewrite (html2md_single_block plainNormalize (str "Hello World") [] []
             eq_refl eq_refl eq_refl eq_refl eq_refl (str "h1"));
    [reflexivity | right; right; right; left; reflexivity].
Defined.
